(** * Credential failover gateway, session store and configuration merge

    A shallow embedding of [services/geminiService.ts] (the completion
    gateway [sendMessageToGemini], its video variant [generateVeoVideo]),
    of the configuration merge at the head of the [ChatInterface]
    component, and of the session operations of the [ConfigProvider]
    context ([restoreSession], [loginClient], [loginAdmin], [logout],
    [updateGlobalConfig]). *)

From Stdlib Require Import ZArith QArith Ascii String List Lia.
From stdpp Require Import base option list gmap strings.

Local Open Scope string_scope.
Local Open Scope nat_scope.
Local Open Scope list_scope.
Local Open Scope stdpp_scope.

(** ** JavaScript values the code relies on *)
Module Js.

(** Truthiness of a string: only the empty string is falsy. *)
Definition truthy (s : string) : bool :=
  match s with
  | EmptyString => false
  | String _ _ => true
  end.

(** Truthiness of a possibly [undefined] string. *)
Definition truthy_opt (o : option string) : bool :=
  match o with
  | Some s => truthy s
  | None => false
  end.

(** [a || b] on possibly [undefined] strings. *)
Definition or_else (a b : option string) : option string :=
  if truthy_opt a then a else b.

(** [hay.includes(needle)]. *)
Fixpoint includes (needle hay : string) : bool :=
  String.prefix needle hay ||
  match hay with
  | EmptyString => false
  | String _ rest => includes needle rest
  end.

(** Interpolation of a possibly [undefined] string in a template literal. *)
Definition interpolate (o : option string) : string :=
  match o with
  | Some s => s
  | None => "undefined"
  end.

(** Thrown values: [new Error(message)] built by the code itself, or a value
    thrown by a collaborator, known through its [toString()] rendering. *)
Inductive exn :=
| Error (message : string)
| Foreign (rendering : string).

(** [error.toString()]; for an [Error] this is [Error.prototype.toString]. *)
Definition toString (e : exn) : string :=
  match e with
  | Error message => if truthy message then "Error: " +:+ message else "Error"
  | Foreign rendering => rendering
  end.

(** [error.message], as the chat component renders it. *)
Definition message_of (e : exn) : string :=
  match e with
  | Error message => message
  | Foreign rendering => rendering
  end.

End Js.

(** ** Asynchronous computations over a state

    An [async] function is a state transformer whose promise resolves or
    rejects; [try]/[catch] sees rejections only. *)
Module Async.
Import Js.

(** How an [async] call ends: the promise resolves, rejects, or (for the
    model only) the evaluation budget ran out before it settled. *)
Inductive settled (A : Type) :=
| Resolved (a : A)
| Rejected (e : exn)
| Unsettled.
Arguments Resolved {A} a.
Arguments Rejected {A} e.
Arguments Unsettled {A}.

Definition IO (S A : Type) : Type := S → settled A * S.

Section Ops.
Context {St : Type}.

Definition ret {A} (a : A) : IO St A := λ s, (Resolved a, s).

Definition bind {A B} (m : IO St A) (k : A → IO St B) : IO St B :=
  λ s,
    match m s with
    | (Resolved a, s') => k a s'
    | (Rejected e, s') => (Rejected e, s')
    | (Unsettled, s') => (Unsettled, s')
    end.

Definition throw {A} (e : exn) : IO St A := λ s, (Rejected e, s).

Definition unsettled {A} : IO St A := λ s, (Unsettled, s).

(** [try { body } catch (error) { handler }]. *)
Definition try_catch {A} (body : IO St A) (handler : exn → IO St A) : IO St A :=
  λ s,
    match body s with
    | (Rejected e, s') => handler e s'
    | r => r
    end.

Definition get : IO St St := λ s, (Resolved s, s).

Definition modify (f : St → St) : IO St unit := λ s, (Resolved tt, f s).
End Ops.

Module Notations.
Notation "x <- m ;; k" := (bind m (λ x, k))
  (at level 100, m at next level, right associativity).
Notation "m ;;; k" := (bind m (λ _, k))
  (at level 100, right associativity).
End Notations.
End Async.

(** ** The completion gateway: [services/geminiService.ts] *)
Module Gemini.
Import Js Async Async.Notations.

Record InlineData := { data : string; mimeType : string }.
Record ImageAttachment := { inlineData : InlineData }.

Inductive Part :=
| TextPart (text : string)
| ImagePart (img : ImageAttachment).

Record Content := { role : string; parts : list Part }.

Inductive HarmCategory :=
| HARM_CATEGORY_HARASSMENT
| HARM_CATEGORY_HATE_SPEECH
| HARM_CATEGORY_SEXUALLY_EXPLICIT
| HARM_CATEGORY_DANGEROUS_CONTENT.

Inductive HarmBlockThreshold := BLOCK_NONE.

Record SafetySetting :=
  { category : HarmCategory; threshold : HarmBlockThreshold }.

(** One [ai.models.generateContent] call, together with the key the client
    [ai] was built with ([None] stands for [undefined]). *)
Record GenerateContentCall :=
  { gc_apiKey : option string;
    gc_model : string;
    gc_contents : list Content;
    gc_systemInstruction : string;
    gc_safetySettings : list SafetySetting }.

Record GenerateContentResponse := { text : option string }.

Record Video := { uri : option string }.
Record GeneratedVideo := { video : option Video }.
Record GenerateVideosResponse :=
  { generatedVideos : option (list GeneratedVideo) }.
Record Operation :=
  { done : bool; response : option GenerateVideosResponse }.

Record GenerateVideosCall :=
  { gv_apiKey : option string;
    gv_model : string;
    gv_prompt : string;
    gv_numberOfVideos : Z;
    gv_resolution : string;
    gv_aspectRatio : string }.

(** What the gateway does to the outside world, in order. *)
Inductive event :=
| GenerateContent (call : GenerateContentCall)
| GenerateVideos (call : GenerateVideosCall)
| GetVideosOperation (apiKey : option string) (operation : Operation)
| SetTimeout (ms : Z)
| ConsoleError (error : exn).

Definition trace := list event.

(** The hosted service: each answer may depend on everything that happened
    before the call, so keys can be revoked or throttled over time. *)
Record Provider :=
  { generateContent :
      trace → GenerateContentCall → exn + GenerateContentResponse;
    generateVideos : trace → GenerateVideosCall → exn + Operation;
    getVideosOperation :
      trace → option string → Operation → exn + Operation }.

Definition emit (ev : event) : IO trace unit := modify (λ tr, tr ++ [ev]).

(** Log the call, then settle with the service's answer. *)
Definition of_answer {A} (ev : event) (answer : exn + A) : IO trace A :=
  emit ev ;;;
  match answer with
  | inl e => throw e
  | inr a => ret a
  end.

Record ChatConfig := { apiKeys : list string; systemInstruction : string }.
Record VideoConfig := { video_apiKeys : list string }.

Definition safetySettings : list SafetySetting :=
  [ {| category := HARM_CATEGORY_HARASSMENT; threshold := BLOCK_NONE |};
    {| category := HARM_CATEGORY_HATE_SPEECH; threshold := BLOCK_NONE |};
    {| category := HARM_CATEGORY_SEXUALLY_EXPLICIT; threshold := BLOCK_NONE |};
    {| category := HARM_CATEGORY_DANGEROUS_CONTENT; threshold := BLOCK_NONE |} ].

(** The test of both [catch] blocks:
    [error.toString().includes("429") || error.toString().includes("403")]. *)
Definition quota_or_denied (error : exn) : bool :=
  includes "429" (toString error) || includes "403" (toString error).

(** [currentParts] once the message and the images have been pushed. *)
Definition currentParts (message : string) (images : list ImageAttachment)
  : list Part :=
  (if truthy message then [TextPart message] else [])
    ++ (if bool_decide (0 < length images) then ImagePart <$> images else []).

(** [formattedContents] once the current turn has been pushed. *)
Definition formattedContents (history : list Content) (message : string)
    (images : list ImageAttachment) : list Content :=
  ((λ msg, {| role := role msg; parts := parts msg |}) <$> history)
    ++ [ {| role := "user"; parts := currentParts message images |} ].

Section Gateway.
Variable provider : Provider.

Definition call_generateContent (call : GenerateContentCall)
  : IO trace GenerateContentResponse :=
  λ tr, of_answer (GenerateContent call) (generateContent provider tr call) tr.

Definition call_generateVideos (call : GenerateVideosCall)
  : IO trace Operation :=
  λ tr, of_answer (GenerateVideos call) (generateVideos provider tr call) tr.

Definition call_getVideosOperation (apiKey : option string)
    (operation : Operation) : IO trace Operation :=
  λ tr, of_answer (GetVideosOperation apiKey operation)
          (getVideosOperation provider tr apiKey operation) tr.

Section SendMessage.
Variables (message : string) (images : list ImageAttachment)
          (history : list Content) (config : ChatConfig).

(** The request sent with the key at one position of the list. *)
Definition request (apiKey : option string) : GenerateContentCall :=
  {| gc_apiKey := apiKey;
     gc_model := "gemini-2.5-flash";
     gc_contents := formattedContents history message images;
     gc_systemInstruction := systemInstruction config;
     gc_safetySettings := safetySettings |}.

(** [tryGenerate]; [budget] bounds the depth of the recursion. *)
Fixpoint tryGenerate (budget : nat) (retryIdx : nat) : IO trace string :=
  match budget with
  | O => unsettled
  | S budget' =>
      if bool_decide (length (apiKeys config) ≤ retryIdx)
      then throw (Error "All API keys exhausted.")
      else
        try_catch
          (let apiKey := apiKeys config !! retryIdx in
           if bool_decide (length (currentParts message images) = 0)
           then throw (Error "Message cannot be empty")
           else
             response <- call_generateContent (request apiKey) ;;
             match text response with
             | Some t => if truthy t then ret t
                         else throw (Error "Empty response")
             | None => throw (Error "Empty response")
             end)
          (λ error,
             if quota_or_denied error
             then tryGenerate budget' (retryIdx + 1)
             else throw error)
  end.

(** The requests of the first [n] positions of the list, in list order. *)
Definition attempts (n : nat) : trace :=
  (λ key, GenerateContent (request (Some key))) <$> take n (apiKeys config).

(** [sendMessageToGemini]: the recursion visits at most every position
    of the list and one past the end. *)
Definition sendMessageToGemini : IO trace string :=
  tryGenerate (S (length (apiKeys config))) 0.

End SendMessage.

(** The events of one polling loop run with the client of [apiKey]. *)
Definition polling (apiKey : option string) (ev : event) : Prop :=
  match ev with
  | SetTimeout ms => ms = 5000%Z
  | GetVideosOperation key _ => key = apiKey
  | _ => False
  end.

Section VeoVideo.
Variables (prompt : string) (config : VideoConfig).

Definition video_request (apiKey : option string) : GenerateVideosCall :=
  {| gv_apiKey := apiKey;
     gv_model := "veo-3.1-fast-generate-preview";
     gv_prompt := prompt;
     gv_numberOfVideos := 1;
     gv_resolution := "720p";
     gv_aspectRatio := "16:9" |}.

(** [operation.response?.generatedVideos?.[0]?.video?.uri]. *)
Definition videoUri (operation : Operation) : option string :=
  r ← response operation;
  videos ← generatedVideos r;
  first ← videos !! 0;
  v ← video first;
  uri v.

(** The polling loop [while (!operation.done) { ... }]; the service may
    never report completion, so the model bounds the rounds. *)
Fixpoint poll (budget : nat) (apiKey : option string)
    (operation : Operation) {struct budget} : IO trace Operation :=
  if done operation then ret operation
  else
    match budget with
    | O => unsettled
    | S budget' =>
        emit (SetTimeout 5000) ;;;
        operation' <- call_getVideosOperation apiKey operation ;;
        poll budget' apiKey operation'
    end.

(** [tryGenerateVideo]. *)
Fixpoint tryGenerateVideo (budget : nat) (retryIdx : nat)
    : IO trace string :=
  match budget with
  | O => unsettled
  | S budget' =>
      if bool_decide (length (video_apiKeys config) ≤ retryIdx)
      then throw (Error "All API keys exhausted.")
      else
        try_catch
          (let apiKey := video_apiKeys config !! retryIdx in
           operation <- call_generateVideos (video_request apiKey) ;;
           operation <- poll budget' apiKey operation ;;
           match videoUri operation with
           | Some videoUri =>
               if truthy videoUri
               then ret (videoUri +:+ "&key=" +:+ interpolate apiKey)
               else throw (Error "Failed to generate video URI")
           | None => throw (Error "Failed to generate video URI")
           end)
          (λ error,
             emit (ConsoleError error) ;;;
             if quota_or_denied error
             then tryGenerateVideo budget' (retryIdx + 1)
             else throw error)
  end.

(** [generateVeoVideo], run with a bound on recursion and polling. *)
Definition generateVeoVideo (budget : nat) : IO trace string :=
  tryGenerateVideo budget 0.

End VeoVideo.
End Gateway.
End Gemini.

(** ** Application types ([AppConfig], [User]) as the components use them *)
Module AppConfig.
Record t :=
  { aiName : string;
    aiPersona : string;
    devName : string;
    apiKeys : list string;
    avatarUrl : string }.
End AppConfig.

(** [Partial<AppConfig>]: every field may be [undefined]. The per-user
    [config] blob is read through the same field names. *)
Module PartialConfig.
Record t :=
  { aiName : option string;
    aiPersona : option string;
    devName : option string;
    apiKeys : option (list string);
    avatarUrl : option string }.

(** The empty object [{}]. *)
Definition empty : t :=
  {| aiName := None; aiPersona := None; devName := None;
     apiKeys := None; avatarUrl := None |}.
End PartialConfig.

Module User.
Record t :=
  { id : string;
    username : string;
    accessKey : string;
    role : string;
    createdAt : string;
    profile : string;
    config : option PartialConfig.t }.
End User.

(** ** The configuration merge at the head of [ChatInterface] *)
Module Chat.
Import Js.

Record DatabaseSchema :=
  { users : list User.t; globalConfig : option AppConfig.t }.

(** What the component calls [config]. *)
Record EffectiveConfig :=
  { aiName : string;
    aiPersona : string;
    devName : string;
    apiKeys : list string }.

(** [a || b] where [a] may be [undefined] and [b] is a string. *)
Definition or_default (a : option string) (b : string) : string :=
  match a with
  | Some s => if truthy s then s else b
  | None => b
  end.

(** [db?.globalConfig || { aiName: 'System', ... }]. *)
Definition globalConfig_of (db : option DatabaseSchema) : AppConfig.t :=
  match db ≫= globalConfig with
  | Some g => g
  | None =>
      {| AppConfig.aiName := "System"; AppConfig.aiPersona := "";
         AppConfig.devName := "Admin"; AppConfig.apiKeys := [];
         AppConfig.avatarUrl := "" |}
  end.

(** [currentUser?.config || {}]. *)
Definition userConfig_of (currentUser : option User.t) : PartialConfig.t :=
  match currentUser ≫= User.config with
  | Some c => c
  | None => PartialConfig.empty
  end.

(** The object literal bound to [config]. *)
Definition config (db : option DatabaseSchema) (currentUser : option User.t)
  : EffectiveConfig :=
  let globalConfig := globalConfig_of db in
  let userConfig := userConfig_of currentUser in
  {| aiName := or_default (PartialConfig.aiName userConfig)
                 (AppConfig.aiName globalConfig);
     aiPersona := or_default (PartialConfig.aiPersona userConfig)
                    (AppConfig.aiPersona globalConfig);
     devName := or_default (PartialConfig.devName userConfig)
                  (AppConfig.devName globalConfig);
     apiKeys :=
       match PartialConfig.apiKeys userConfig with
       | Some keys =>
           if bool_decide (0 < length keys) then keys
           else AppConfig.apiKeys globalConfig
       | None => AppConfig.apiKeys globalConfig
       end |}.
End Chat.

(** ** The session store: the [ConfigProvider] context *)
Module Session.
Import Js Async Async.Notations.

(** A row of the remote [users] table, with its column names. *)
Module Row.
Record t :=
  { id : string;
    username : string;
    access_key : string;
    role : string;
    created_at : string;
    profile : string;
    config : option PartialConfig.t }.
End Row.

(** Column values of the [app_config] table and of update objects. *)
Inductive Json :=
| JNumber (n : Z)
| JString (s : string)
| JStrings (l : list string).

(** The browser side (React state, [localStorage]) and the remote tables. *)
Record World :=
  { currentUser : option User.t;
    localStorage : gmap string string;
    users : list Row.t;
    app_config : list (gmap string Json) }.

Definition set_currentUser (u : option User.t) (w : World) : World :=
  {| currentUser := u; localStorage := localStorage w;
     users := users w; app_config := app_config w |}.

Definition set_localStorage (f : gmap string string → gmap string string)
    (w : World) : World :=
  {| currentUser := currentUser w; localStorage := f (localStorage w);
     users := users w; app_config := app_config w |}.

Definition set_app_config (rows : list (gmap string Json)) (w : World)
  : World :=
  {| currentUser := currentUser w; localStorage := localStorage w;
     users := users w; app_config := rows |}.

Definition getItem (slot : string) : IO World (option string) :=
  w <- get ;; ret (localStorage w !! slot).

Definition setItem (slot value : string) : IO World unit :=
  modify (set_localStorage (insert slot value)).

Definition removeItem (slot : string) : IO World unit :=
  modify (set_localStorage (delete slot)).

Definition setCurrentUser (u : option User.t) : IO World unit :=
  modify (set_currentUser u).

(** [.single()]: the row when exactly one matches, [null] otherwise. *)
Definition single {A} (rows : list A) : option A :=
  match rows with
  | [r] => Some r
  | _ => None
  end.

(** The answer to [select('*') ... .single()] for a conjunction of [.eq]
    filters over the rows of a table. *)
Definition matching (P : Row.t → Prop) `{∀ r, Decision (P r)}
    (rows : list Row.t) : option Row.t :=
  single (filter P rows).

(** [await supabase.from('users').select('*') ... .single()]. *)
Definition select_single (P : Row.t → Prop) `{∀ r, Decision (P r)}
  : IO World (option Row.t) :=
  w <- get ;; ret (matching P (users w)).

(** The object literal bound to [mapped] in all three operations. *)
Definition mapped (user : Row.t) : User.t :=
  {| User.id := Row.id user;
     User.username := Row.username user;
     User.accessKey := Row.access_key user;
     User.role := Row.role user;
     User.createdAt := Row.created_at user;
     User.profile := Row.profile user;
     User.config := Row.config user |}.

Record LoginResult := { success : bool; message : option string }.

Definition session_slot : string := "central_gpt_active_session".

(** 200,000 hours, in milliseconds. *)
Definition expiry_ms : Z := 200000 * (1000 * 60 * 60).

Section Clock.
(** [new Date(s).getTime()]: milliseconds since the epoch, [None] for the
    [NaN] of a string that is not a date. *)
Variable Date_getTime : string → option Z.

(** [(now.getTime() - created.getTime()) / (1000 * 60 * 60)], [None] for
    [NaN]. The quotient is taken over the rationals: times are whole
    milliseconds, so a quotient below 200000 is below it by at least
    1/3600000, far more than the spacing of doubles there, and rounding to
    a double never moves a quotient across that bound. *)
Definition diffHours (now : Z) (created_at : string) : option Q :=
  created ← Date_getTime created_at;
  Some (inject_Z (now - created) / inject_Z (1000 * 60 * 60))%Q.

(** [diffHours >= 200000]; any comparison with [NaN] is false. *)
Definition ge_200000 (d : option Q) : bool :=
  match d with
  | Some q => Qle_bool (inject_Z 200000) q
  | None => false
  end.

(** [restoreSession], run when the provider mounts at time [now]. *)
Definition restoreSession (now : Z) : IO World unit :=
  savedSessionKey <- getItem session_slot ;;
  if negb (truthy_opt savedSessionKey) then ret tt
  else
    let key := default "" savedSessionKey in
    user <- select_single (λ r, Row.access_key r = key) ;;
    match user with
    | None => removeItem session_slot
    | Some user =>
        let diffHours := diffHours now (Row.created_at user) in
        if ge_200000 diffHours
           && negb (bool_decide (Row.role user = "admin"))
        then removeItem session_slot
        else setCurrentUser (Some (mapped user))
    end.

(** [loginClient]. *)
Definition loginClient (now : Z) (key : string) : IO World LoginResult :=
  user <- select_single
            (λ r, Row.access_key r = key ∧ Row.role r = "user") ;;
  match user with
  | None =>
      ret {| success := false; message := Some "Invalid Access Key." |}
  | Some user =>
      let diffHours := diffHours now (Row.created_at user) in
      if ge_200000 diffHours
      then ret {| success := false;
                  message := Some "Access Key expired (200.000 hours)." |}
      else
        setCurrentUser (Some (mapped user)) ;;;
        setItem session_slot key ;;;
        ret {| success := true; message := None |}
  end.

End Clock.

(** [loginAdmin]. *)
Definition loginAdmin (username key : string) : IO World LoginResult :=
  user <- select_single
            (λ r, Row.username r = username ∧ Row.access_key r = key
                  ∧ Row.role r = "admin") ;;
  match user with
  | None =>
      ret {| success := false; message := Some "Invalid Admin Credentials." |}
  | Some user =>
      setCurrentUser (Some (mapped user)) ;;;
      setItem session_slot key ;;;
      ret {| success := true; message := None |}
  end.

(** [logout]. *)
Definition logout : IO World unit :=
  setCurrentUser None ;;; removeItem session_slot.

(** The object [dbUpdate] that [updateGlobalConfig] builds. *)
Definition dbUpdate (newConfig : PartialConfig.t) : gmap string Json :=
  let u0 : gmap string Json := ∅ in
  let u1 := match PartialConfig.aiName newConfig with
            | Some v => if truthy v then <["ai_name" := JString v]> u0 else u0
            | None => u0
            end in
  let u2 := match PartialConfig.devName newConfig with
            | Some v => if truthy v then <["dev_name" := JString v]> u1 else u1
            | None => u1
            end in
  let u3 := match PartialConfig.avatarUrl newConfig with
            | Some v => if truthy v then <["avatar_url" := JString v]> u2 else u2
            | None => u2
            end in
  match PartialConfig.apiKeys newConfig with
  | Some keys => <["api_keys" := JStrings keys]> u3
  | None => u3
  end.

(** [.update(values).eq('id', 1)] on one row: the columns named in [values]
    are overwritten, the others are kept. *)
Definition update_row (values : gmap string Json) (row : gmap string Json)
  : gmap string Json :=
  match row !! "id" with
  | Some (JNumber 1%Z) => values ∪ row
  | _ => row
  end.

(** [updateGlobalConfig]. *)
Definition updateGlobalConfig (newConfig : PartialConfig.t) : IO World unit :=
  let dbUpdate := dbUpdate newConfig in
  modify (λ w, set_app_config (update_row dbUpdate <$> app_config w) w).

End Session.


(** ** Concrete services and inputs used to exercise the model *)
Module Samples.
Import Js Async Gemini.

Definition ready (locator : string) : Operation :=
  {| done := true;
     response :=
       Some {| generatedVideos :=
                 Some [ {| video := Some {| uri := Some locator |} |} ] |} |}.

Definition running : Operation := {| done := false; response := None |}.

(** A service that throttles every key but ["keyB"], answers ["hi"] to
    ["keyB"], and finishes a video job at the first poll. *)
Definition throttling : Provider :=
  {| generateContent := λ _ call,
       if bool_decide (gc_apiKey call = Some "keyB")
       then inr {| text := Some "hi" |}
       else inl (Foreign "ApiError: 429 Too Many Requests");
     generateVideos := λ _ call,
       if bool_decide (gv_apiKey call = Some "keyB")
       then inr running
       else inl (Foreign "ApiError: 403 Forbidden");
     getVideosOperation := λ _ _ _, inr (ready "https://video.example/v1?alt=media") |}.

(** A service that denies every key. *)
Definition denying : Provider :=
  {| generateContent := λ _ _, inl (Foreign "ApiError: 403 Forbidden");
     generateVideos := λ _ _, inl (Foreign "ApiError: 403 Forbidden");
     getVideosOperation := λ _ _ _, inl (Foreign "ApiError: 403 Forbidden") |}.

(** A service that throttles ["keyA"] and answers the others without text. *)
Definition mute : Provider :=
  {| generateContent := λ _ call,
       if bool_decide (gc_apiKey call = Some "keyA")
       then inl (Foreign "ApiError: 429 Too Many Requests")
       else inr {| text := None |};
     generateVideos := λ _ _, inr {| done := true; response := None |};
     getVideosOperation := λ _ _ operation, inr operation |}.

Definition two_keys : ChatConfig :=
  {| apiKeys := ["keyA"; "keyB"]; systemInstruction := "be terse" |}.

Definition two_video_keys : VideoConfig :=
  {| video_apiKeys := ["keyA"; "keyB"] |}.

(** A global configuration and per-user overrides for the merge. *)
Definition global : AppConfig.t :=
  {| AppConfig.aiName := "CentralGPT";
     AppConfig.aiPersona := "You are {{AI_NAME}}.";
     AppConfig.devName := "XdpzQ";
     AppConfig.apiKeys := ["keyA"; "keyB"];
     AppConfig.avatarUrl := "" |}.

Definition db : Chat.DatabaseSchema :=
  {| Chat.users := []; Chat.globalConfig := Some global |}.

Definition user_with (override : PartialConfig.t) : User.t :=
  {| User.id := "u1"; User.username := "alice";
     User.accessKey := "VALID-KEY-123"; User.role := "user";
     User.createdAt := "2001-09-09T01:46:40.000Z"; User.profile := "{}";
     User.config := Some override |}.

(** An override whose AI name is present but empty. *)
Definition blank_name : PartialConfig.t :=
  {| PartialConfig.aiName := Some "";
     PartialConfig.aiPersona := None;
     PartialConfig.devName := Some "Dev";
     PartialConfig.apiKeys := Some [];
     PartialConfig.avatarUrl := None |}.


(** A clock that reads one timestamp, 10^12 ms after the epoch. *)
Definition Date_getTime (s : string) : option Z :=
  if bool_decide (s = "2001-09-09T01:46:40.000Z")
  then Some 1000000000000%Z
  else None.

Definition alice : Session.Row.t :=
  {| Session.Row.id := "u1"; Session.Row.username := "alice";
     Session.Row.access_key := "VALID-KEY-123"; Session.Row.role := "user";
     Session.Row.created_at := "2001-09-09T01:46:40.000Z";
     Session.Row.profile := "{}"; Session.Row.config := None |}.

Definition root : Session.Row.t :=
  {| Session.Row.id := "u0"; Session.Row.username := "root";
     Session.Row.access_key := "ADMIN-KEY"; Session.Row.role := "admin";
     Session.Row.created_at := "2001-09-09T01:46:40.000Z";
     Session.Row.profile := "{}"; Session.Row.config := None |}.

Definition config_row : gmap string Session.Json :=
  <["id" := Session.JNumber 1]>
    (<["ai_name" := Session.JString "CentralGPT"]>
       (<["ai_persona" := Session.JString "You are {{AI_NAME}}."]> ∅)).

(** A browser with nobody logged in and nothing persisted. *)
Definition fresh : Session.World :=
  {| Session.currentUser := None;
     Session.localStorage := ∅;
     Session.users := [root; alice];
     Session.app_config := [config_row] |}.

(** A browser that persisted a key. *)
Definition returning (key : string) : Session.World :=
  {| Session.currentUser := None;
     Session.localStorage := {[ Session.session_slot := key ]};
     Session.users := [root; alice];
     Session.app_config := [config_row] |}.

End Samples.


(** ** Reading a run of the video variant *)
Module Traces.
Import Js Gemini.

(** The video jobs started along a trace, in order. *)
Definition jobs (tr : trace) : list GenerateVideosCall :=
  omap (λ ev, match ev with
              | GenerateVideos call => Some call
              | _ => None
              end) tr.

(** The [console.error] reports along a trace, in order. *)
Definition reports (tr : trace) : list exn :=
  omap (λ ev, match ev with
              | ConsoleError error => Some error
              | _ => None
              end) tr.

End Traces.

(** ** The chat component: what [handleSendMessage] sends, and [escapeHtml] *)
Module ChatTurn.
Import Js Async Gemini.

(** A [Message] of the transcript; [isError] may be [undefined]. *)
Record Message :=
  { role : string; text : string; isError : option bool }.

(** [messages.filter(m => !m.isError)
       .map(m => ({ role: m.role, parts: [{ text: m.text }] }))]. *)
Definition history (messages : list Message) : list Content :=
  (λ m, {| Gemini.role := role m; parts := [TextPart (text m)] |})
    <$> filter (λ m, isError m ≠ Some true) messages.

(** The call [sendMessageToGemini(currentInput, imageAttachments, history,
    { apiKeys: config.apiKeys, systemInstruction })]. *)
Definition send (provider : Provider) (config : Chat.EffectiveConfig)
    (systemInstruction : string) (messages : list Message)
    (currentInput : string) (imageAttachments : list ImageAttachment)
  : IO trace string :=
  sendMessageToGemini provider currentInput imageAttachments
    (history messages)
    {| apiKeys := Chat.apiKeys config;
       Gemini.systemInstruction := systemInstruction |}.

(** [str.replace(/c/g, by)] for a pattern that is the single character [c]
    and a replacement without [$]. *)
Fixpoint replace_all (c : ascii) (by_ : string) (str : string) : string :=
  match str with
  | EmptyString => EmptyString
  | String x rest =>
      (if Ascii.eqb x c then by_ else String x EmptyString)
        +:+ replace_all c by_ rest
  end.

(** [escapeHtml]: six global replacements, one after the other. *)
Definition escapeHtml (str : string) : string :=
  replace_all "010"%char "<br/>"
    (replace_all "'"%char "&#039;"
       (replace_all "034"%char "&quot;"
          (replace_all ">"%char "&gt;"
             (replace_all "<"%char "&lt;"
                (replace_all "&"%char "&amp;" str))))).

(** What a single left-to-right pass would write for one character. *)
Definition escaped (c : ascii) : string :=
  if Ascii.eqb c "&"%char then "&amp;"
  else if Ascii.eqb c "<"%char then "&lt;"
  else if Ascii.eqb c ">"%char then "&gt;"
  else if Ascii.eqb c "034"%char then "&quot;"
  else if Ascii.eqb c "'"%char then "&#039;"
  else if Ascii.eqb c "010"%char then "<br/>"
  else String c EmptyString.

(** The single pass over a whole string. *)
Fixpoint escape_pass (str : string) : string :=
  match str with
  | EmptyString => EmptyString
  | String c rest => escaped c +:+ escape_pass rest
  end.

(** The characters of a string. *)
Fixpoint chars (str : string) : list ascii :=
  match str with
  | EmptyString => []
  | String c rest => c :: chars rest
  end.

(** The concatenation of a list of strings. *)
Definition join (pieces : list string) : string :=
  foldr String.append EmptyString pieces.

(** The six characters [escapeHtml] rewrites. *)
Definition special (c : ascii) : Prop :=
  c ∈ ["&"; "<"; ">"; "034"; "'"; "010"]%char.

(** What it writes in their place. *)
Definition entities : list string :=
  ["&amp;"; "&lt;"; "&gt;"; "&quot;"; "&#039;"; "<br/>"].

End ChatTurn.

(** ** Administration operations of the [ConfigProvider] context *)
Module Admin.
Import Js Async Async.Notations Session.

Definition set_users (rows : list Row.t) (w : World) : World :=
  {| currentUser := currentUser w; localStorage := localStorage w;
     users := rows; app_config := app_config w |}.

(** [deleteUser]: [.delete().eq('id', id)] on the [users] table. *)
Definition deleteUser (id : string) : IO World unit :=
  modify (λ w, set_users (filter (λ r, Row.id r ≠ id) (users w)) w).

(** [await supabase.from('app_config').update(values).eq('id', 1)]. *)
Definition update_app_config (values : gmap string Json) : IO World unit :=
  modify (λ w, set_app_config (update_row values <$> app_config w) w).

(** [addApiKey]; [globalConfig] is [db.globalConfig], the mirror the
    component holds when the operation is called. *)
Definition addApiKey (globalConfig : AppConfig.t) (key : string)
  : IO World unit :=
  update_app_config
    {[ "api_keys" := JStrings (AppConfig.apiKeys globalConfig ++ [key]) ]}.

(** [removeApiKey], with the same mirror. *)
Definition removeApiKey (globalConfig : AppConfig.t) (keyToRemove : string)
  : IO World unit :=
  update_app_config
    {[ "api_keys" :=
         JStrings (filter (λ k, k ≠ keyToRemove)
                     (AppConfig.apiKeys globalConfig)) ]}.

(** A fresh page load: the React state starts over ([useState(null)]) while
    local storage and the remote tables stay. *)
Definition reload (w : World) : World := set_currentUser None w.

(** The current user, when there is one, is the one whose key is persisted. *)
Definition session_consistent (w : World) : Prop :=
  ∀ u, currentUser w = Some u →
       localStorage w !! session_slot = Some (User.accessKey u).

End Admin.

(** ** More inputs used to exercise the model *)
Module MoreSamples.
Import Js Async Gemini.

(** A service whose chat endpoint is unreachable and whose video jobs
    finish at once without a locator. *)
Definition offline : Provider :=
  {| generateContent := λ _ _, inl (Foreign "TypeError: Failed to fetch");
     generateVideos := λ _ _, inr {| done := true; response := None |};
     getVideosOperation := λ _ _ operation, inr operation |}.

(** A service that starts video jobs and throttles every poll. *)
Definition throttled_polls : Provider :=
  {| generateContent := λ _ _, inl (Foreign "ApiError: 429 Too Many Requests");
     generateVideos := λ _ _, inr Samples.running;
     getVideosOperation := λ _ _ _,
       inl (Foreign "ApiError: 429 Too Many Requests") |}.

Definition transcript : list ChatTurn.Message :=
  [ {| ChatTurn.role := "user"; ChatTurn.text := "hello";
       ChatTurn.isError := None |};
    {| ChatTurn.role := "model"; ChatTurn.text := "Error: Empty response";
       ChatTurn.isError := Some true |};
    {| ChatTurn.role := "model"; ChatTurn.text := "hi";
       ChatTurn.isError := Some false |} ].

(** A second ordinary user who shares alice's access key. *)
Definition twin : Session.Row.t :=
  {| Session.Row.id := "u2"; Session.Row.username := "bob";
     Session.Row.access_key := "VALID-KEY-123"; Session.Row.role := "user";
     Session.Row.created_at := "2001-09-09T01:46:40.000Z";
     Session.Row.profile := "{}"; Session.Row.config := None |}.

(** A global configuration with an empty persona and no credentials. *)
Definition bare_global : AppConfig.t :=
  {| AppConfig.aiName := "System";
     AppConfig.aiPersona := "";
     AppConfig.devName := "Admin";
     AppConfig.apiKeys := [];
     AppConfig.avatarUrl := "" |}.

Definition crowded : Session.World :=
  {| Session.currentUser := None;
     Session.localStorage := ∅;
     Session.users := [Samples.root; Samples.alice; twin];
     Session.app_config := [Samples.config_row] |}.

End MoreSamples.


(** * Properties of the completion gateway *)
Module GatewayFacts.
Import Js Async Async.Notations Gemini.

(** The errors the gateway builds itself are never taken for a quota or
    authorization failure. *)
Lemma exhausted_not_retried :
  quota_or_denied (Error "All API keys exhausted.") = false.
Proof. reflexivity. Qed.

Lemma empty_message_not_retried :
  quota_or_denied (Error "Message cannot be empty") = false.
Proof. reflexivity. Qed.

Lemma empty_response_not_retried :
  quota_or_denied (Error "Empty response") = false.
Proof. reflexivity. Qed.

Example includes_finds_status :
  includes "429" "ApiError: 429 Too Many Requests" = true
  ∧ includes "403" "ApiError: 429 Too Many Requests" = false
  ∧ includes "429" "" = false.
Proof. repeat split. Qed.

Example toString_of_errors :
  toString (Error "Empty response") = "Error: Empty response"
  ∧ toString (Error "") = "Error".
Proof. split; reflexivity. Qed.

Example second_key_answers :
  sendMessageToGemini Samples.throttling "hello" [] [] Samples.two_keys []
  = (Resolved "hi",
     [ GenerateContent
         (request "hello" [] [] Samples.two_keys (Some "keyA"));
       GenerateContent
         (request "hello" [] [] Samples.two_keys (Some "keyB")) ]).
Proof. reflexivity. Qed.

Example other_failures_are_final :
  sendMessageToGemini
    {| generateContent := λ _ _, inl (Foreign "TypeError: fetch failed");
       generateVideos := λ _ _, inl (Foreign "TypeError: fetch failed");
       getVideosOperation := λ _ _ _, inl (Foreign "TypeError: fetch failed") |}
    "hello" [] [] Samples.two_keys []
  = (Rejected (Foreign "TypeError: fetch failed"),
     [ GenerateContent
         (request "hello" [] [] Samples.two_keys (Some "keyA")) ]).
Proof. reflexivity. Qed.

Lemma truthy_nonempty (s : string) : truthy s = true ↔ s ≠ "".
Proof. destruct s; simpl; split; congruence. Qed.

Lemma currentParts_nil message images :
  currentParts message images = [] ↔ message = "" ∧ images = [].
Proof.
  unfold currentParts. destruct message, images; simpl; split;
    intros; try discriminate; intuition (try discriminate; auto).
Qed.

Section Steps.
Variables (provider : Provider) (message : string)
          (images : list ImageAttachment) (history : list Content)
          (config : ChatConfig).

Local Abbreviation attempt :=
  (tryGenerate provider message images history config).
Local Abbreviation call_at i :=
  (request message images history config (apiKeys config !! i)).
Local Abbreviation sent := (attempts message images history config).

(** Past the end of the list the call rejects at once. *)
Lemma tryGenerate_past_end budget retryIdx tr :
  length (apiKeys config) ≤ retryIdx →
  attempt (S budget) retryIdx tr
  = (Rejected (Error "All API keys exhausted."), tr).
Proof.
  intros Hge. simpl. rewrite bool_decide_eq_true_2 by done. reflexivity.
Qed.

(** With nothing to send the call rejects before reaching the service. *)
Lemma tryGenerate_nothing_to_send budget retryIdx tr :
  retryIdx < length (apiKeys config) →
  currentParts message images = [] →
  attempt (S budget) retryIdx tr
  = (Rejected (Error "Message cannot be empty"), tr).
Proof.
  intros Hlt Hnil. simpl.
  rewrite bool_decide_eq_false_2 by lia.
  unfold try_catch. rewrite Hnil. simpl. reflexivity.
Qed.

(** One attempt within the list, with something to send: the request goes
    out, and the answer decides between returning, failing and moving on. *)
Lemma tryGenerate_attempt budget retryIdx tr :
  retryIdx < length (apiKeys config) →
  currentParts message images ≠ [] →
  attempt (S budget) retryIdx tr
  = let tr' := tr ++ [GenerateContent (call_at retryIdx)] in
    match generateContent provider tr (call_at retryIdx) with
    | inr r =>
        match text r with
        | Some t => if truthy t then (Resolved t, tr')
                    else (Rejected (Error "Empty response"), tr')
        | None => (Rejected (Error "Empty response"), tr')
        end
    | inl e =>
        if quota_or_denied e then attempt budget (retryIdx + 1) tr'
        else (Rejected e, tr')
    end.
Proof.
  intros Hlt Hparts. cbn [tryGenerate].
  rewrite bool_decide_eq_false_2 by lia.
  unfold try_catch at 1.
  rewrite bool_decide_eq_false_2
    by (destruct (currentParts message images); [done | discriminate]).
  unfold bind at 1, call_generateContent, of_answer, emit, modify.
  unfold bind at 1.
  destruct (generateContent provider tr _) as [e | r]; cbn [throw ret].
  - destruct (quota_or_denied e); reflexivity.
  - destruct (text r) as [t |]; [destruct (truthy t) |]; try reflexivity.
Qed.

Lemma attempts_S n :
  n < length (apiKeys config) →
  sent (S n) = sent n ++ [GenerateContent (call_at n)].
Proof.
  intros Hn. destruct (lookup_lt_is_Some_2 _ _ Hn) as [key Hkey].
  unfold attempts. rewrite (take_S_r _ _ _ Hkey), fmap_app, Hkey. reflexivity.
Qed.

(** A run of [m] consecutive quota or authorization failures starting at
    position [j] costs [m] requests and leaves the call at position [j + m]. *)
Lemma tryGenerate_skips budget m : ∀ j tr,
  j + m ≤ length (apiKeys config) →
  currentParts message images ≠ [] →
  (∀ i, j ≤ i < j + m →
     ∃ e, generateContent provider (tr ++ sent i) (call_at i) = inl e
          ∧ quota_or_denied e = true) →
  attempt (m + budget) j (tr ++ sent j)
  = attempt budget (j + m) (tr ++ sent (j + m)).
Proof.
  induction m as [| m IH]; intros j tr Hlen Hparts Hfail.
  - rewrite Nat.add_0_r. reflexivity.
  - destruct (Hfail j ltac:(lia)) as (e & He & Hq).
    change (S m + budget) with (S (m + budget)).
    rewrite tryGenerate_attempt by (done || lia).
    cbv zeta. rewrite He, Hq, <- app_assoc, <- attempts_S by lia.
    replace (j + 1) with (S j) by lia.
    rewrite IH by (done || lia || (intros; apply Hfail; lia)).
    f_equal; [lia | do 2 f_equal; lia].
Qed.

(** The same run, from the first position. *)
Lemma tryGenerate_skips_from_start budget m tr :
  m ≤ length (apiKeys config) →
  currentParts message images ≠ [] →
  (∀ i, i < m →
     ∃ e, generateContent provider (tr ++ sent i) (call_at i) = inl e
          ∧ quota_or_denied e = true) →
  attempt (m + budget) 0 tr = attempt budget m (tr ++ sent m).
Proof.
  intros Hlen Hparts Hfail.
  pose proof (tryGenerate_skips budget m 0 tr) as Hskip.
  change (sent 0) with (@nil event) in Hskip. rewrite app_nil_r in Hskip.
  apply Hskip; [lia | done | intros; apply Hfail; lia].
Qed.

(** A settled call never resolves with the empty string. *)
Lemma tryGenerate_resolves_nonempty budget : ∀ retryIdx tr t tr',
  attempt budget retryIdx tr = (Resolved t, tr') → t ≠ "".
Proof.
  induction budget as [| budget IH]; intros retryIdx tr t tr' Hrun.
  - discriminate.
  - destruct (decide (length (apiKeys config) ≤ retryIdx)) as [Hge | Hlt].
    { rewrite tryGenerate_past_end in Hrun by done. discriminate. }
    destruct (decide (currentParts message images = [])) as [Hnil | Hparts].
    { rewrite tryGenerate_nothing_to_send in Hrun by (done || lia).
      discriminate. }
    rewrite tryGenerate_attempt in Hrun by (done || lia). cbv zeta in Hrun.
    destruct (generateContent provider tr _) as [e | r].
    + destruct (quota_or_denied e); [eauto | discriminate].
    + destruct (text r) as [s |]; [| discriminate].
      destruct (truthy s) eqn:Hs; [| discriminate].
      injection Hrun as -> _. by apply truthy_nonempty.
Qed.

(** With a budget above the number of positions left, the call settles. *)
Lemma tryGenerate_settles budget : ∀ retryIdx tr,
  length (apiKeys config) - retryIdx < budget →
  (attempt budget retryIdx tr).1 ≠ Unsettled.
Proof.
  induction budget as [| budget IH]; intros retryIdx tr Hbudget; [lia |].
  destruct (decide (length (apiKeys config) ≤ retryIdx)) as [Hge | Hlt].
  { by rewrite tryGenerate_past_end. }
  destruct (decide (currentParts message images = [])) as [Hnil | Hparts].
  { by rewrite tryGenerate_nothing_to_send by (done || lia). }
  rewrite tryGenerate_attempt by (done || lia). cbv zeta.
  destruct (generateContent provider tr _) as [e | r].
  - destruct (quota_or_denied e); [apply IH; lia | done].
  - destruct (text r) as [s |]; [destruct (truthy s) |]; done.
Qed.

End Steps.

(** The call always settles: the budget it is run with is never used up. *)
Lemma sendMessageToGemini_settles provider message images history config tr :
  (sendMessageToGemini provider message images history config tr).1
  ≠ Unsettled.
Proof. apply tryGenerate_settles. lia. Qed.

(** C1. When the list has [n + 1] credentials, the attempts with the first
    [n] fail with a failure whose rendering mentions 429 or 403, and the
    attempt with the last one answers a non-empty text, the call returns
    that text after exactly [n + 1] requests, one per credential, in list
    order. (That attempts are made at all requires something to send.) *)
Theorem failover_returns_last_answer provider message images history config
    tr n t :
  length (apiKeys config) = S n →
  currentParts message images ≠ [] →
  (∀ i, i < n →
     ∃ e, generateContent provider
            (tr ++ attempts message images history config i)
            (request message images history config (apiKeys config !! i))
          = inl e
          ∧ quota_or_denied e = true) →
  generateContent provider
    (tr ++ attempts message images history config n)
    (request message images history config (apiKeys config !! n))
  = inr {| text := Some t |} →
  t ≠ "" →
  sendMessageToGemini provider message images history config tr
  = (Resolved t, tr ++ attempts message images history config (S n))
  ∧ length (attempts message images history config (S n)) = S n.
Proof.
  intros Hlen Hparts Hfail Hok Ht. split.
  - unfold sendMessageToGemini. rewrite Hlen.
    replace (S (S n)) with (n + 2) by lia.
    rewrite tryGenerate_skips_from_start by (done || lia).
    rewrite tryGenerate_attempt by (done || lia). cbv zeta.
    rewrite Hok. cbn [text].
    apply truthy_nonempty in Ht. rewrite Ht.
    rewrite <- app_assoc, <- attempts_S by lia. reflexivity.
  - unfold attempts. rewrite length_fmap, length_take. lia.
Qed.

Lemma failover_returns_last_answer_witness :
  sendMessageToGemini Samples.throttling "hello" [] [] Samples.two_keys []
  = (Resolved "hi",
     attempts "hello" [] [] Samples.two_keys 2)
  ∧ length (attempts "hello" [] [] Samples.two_keys 2) = 2.
Proof.
  apply (failover_returns_last_answer Samples.throttling "hello" [] []
           Samples.two_keys [] 1 "hi").
  - reflexivity.
  - discriminate.
  - intros i Hi. destruct i as [| i]; [| lia].
    eexists. split; reflexivity.
  - reflexivity.
  - discriminate.
Defined.

(** C2. With an empty credential list the call rejects with "All API keys
    exhausted." and sends nothing; when every credential of the list fails
    with a quota or authorization failure it rejects with the same error
    after one request per credential; and it never resolves with an empty
    text. *)
Theorem exhausted_credentials_reject provider message images history :
  (∀ systemInstruction tr,
     sendMessageToGemini provider message images history
       {| apiKeys := []; systemInstruction := systemInstruction |} tr
     = (Rejected (Error "All API keys exhausted."), tr))
  ∧ (∀ config tr,
       currentParts message images ≠ [] →
       (∀ i, i < length (apiKeys config) →
          ∃ e, generateContent provider
                 (tr ++ attempts message images history config i)
                 (request message images history config (apiKeys config !! i))
               = inl e
               ∧ quota_or_denied e = true) →
       sendMessageToGemini provider message images history config tr
       = (Rejected (Error "All API keys exhausted."),
          tr ++ attempts message images history config
                  (length (apiKeys config))))
  ∧ (∀ config tr t tr',
       sendMessageToGemini provider message images history config tr
       = (Resolved t, tr') →
       t ≠ "").
Proof.
  split; [| split].
  - intros sys tr. reflexivity.
  - intros config tr Hparts Hfail. unfold sendMessageToGemini.
    replace (S (length (apiKeys config)))
      with (length (apiKeys config) + 1) by lia.
    rewrite tryGenerate_skips_from_start by (done || lia).
    by rewrite tryGenerate_past_end.
  - intros config tr t tr'. apply tryGenerate_resolves_nonempty.
Qed.

Lemma exhausted_credentials_reject_witness :
  sendMessageToGemini Samples.denying "hello" [] [] Samples.two_keys []
  = (Rejected (Error "All API keys exhausted."),
     attempts "hello" [] [] Samples.two_keys 2).
Proof.
  refine (proj1 (proj2 (exhausted_credentials_reject Samples.denying
                          "hello" [] [])) Samples.two_keys [] _ _).
  - discriminate.
  - intros i Hi. eexists. split; reflexivity.
Defined.

(** C3. When the attempts before position [i] fail over and the attempt at
    position [i] is answered with an absent or empty text, the call rejects
    with "Empty response" and the request at position [i] is the last one it
    sends. *)
Theorem empty_response_is_final provider message images history config
    tr i r :
  i < length (apiKeys config) →
  currentParts message images ≠ [] →
  (∀ j, j < i →
     ∃ e, generateContent provider
            (tr ++ attempts message images history config j)
            (request message images history config (apiKeys config !! j))
          = inl e
          ∧ quota_or_denied e = true) →
  generateContent provider
    (tr ++ attempts message images history config i)
    (request message images history config (apiKeys config !! i))
  = inr r →
  truthy_opt (text r) = false →
  sendMessageToGemini provider message images history config tr
  = (Rejected (Error "Empty response"),
     tr ++ attempts message images history config (S i)).
Proof.
  intros Hi Hparts Hfail Hanswer Hempty. unfold sendMessageToGemini.
  replace (S (length (apiKeys config)))
    with (i + S (length (apiKeys config) - i)) by lia.
  rewrite tryGenerate_skips_from_start by (done || lia).
  rewrite tryGenerate_attempt by (done || lia). cbv zeta.
  rewrite Hanswer, <- app_assoc, <- attempts_S by lia.
  destruct (text r) as [t |]; [| reflexivity].
  simpl in Hempty. rewrite Hempty. reflexivity.
Qed.

Lemma empty_response_is_final_witness :
  sendMessageToGemini Samples.mute "hello" [] []
    {| apiKeys := ["keyA"; "keyC"; "keyB"]; systemInstruction := "" |} []
  = (Rejected (Error "Empty response"),
     attempts "hello" [] []
       {| apiKeys := ["keyA"; "keyC"; "keyB"]; systemInstruction := "" |} 2).
Proof.
  apply (empty_response_is_final Samples.mute "hello" [] []
           {| apiKeys := ["keyA"; "keyC"; "keyB"]; systemInstruction := "" |}
           [] 1 {| text := None |}).
  - simpl. lia.
  - discriminate.
  - intros j Hj. destruct j as [| j]; [| lia].
    eexists. split; reflexivity.
  - reflexivity.
  - reflexivity.
Defined.

(** C8. A call whose message text is empty and whose attachment list is empty
    rejects, and the record of requests is left as it was: nothing is sent. *)
Theorem empty_turn_rejected_unsent provider history config tr :
  sendMessageToGemini provider "" [] history config tr
  = (Rejected
       (Error (if bool_decide (apiKeys config = [])
               then "All API keys exhausted."
               else "Message cannot be empty")),
     tr).
Proof.
  unfold sendMessageToGemini. case_bool_decide as Hkeys.
  - rewrite tryGenerate_past_end; [done | rewrite Hkeys; simpl; lia].
  - rewrite tryGenerate_nothing_to_send; [done | | done].
    destruct (apiKeys config); [done | simpl; lia].
Qed.

Lemma append_differs (a b : string) : b ≠ "" → a +:+ b ≠ a.
Proof.
  intros Hb. induction a as [| c a IH]; simpl; [done |].
  intros Heq. injection Heq. exact IH.
Qed.

Section VideoSteps.
Variables (provider : Provider) (prompt : string) (config : VideoConfig).

Local Abbreviation attempt_video := (tryGenerateVideo provider prompt config).

(** What the [catch] block of [tryGenerateVideo] does with an error. *)
Local Abbreviation recover budget retryIdx error tr :=
  (if quota_or_denied error
   then attempt_video budget (retryIdx + 1) (tr ++ [ConsoleError error])
   else (Rejected error, tr ++ [ConsoleError error])).

(** A resolved polling loop ends on a finished operation, only adds waits
    and polls, and the operation it ends on is the one it was given (no
    poll made) or the service's answer to its last poll. *)
Lemma poll_resolved budget apiKey : ∀ operation tr operation' tr',
  poll provider budget apiKey operation tr = (Resolved operation', tr') →
  done operation' = true
  ∧ ∃ polls,
      tr' = tr ++ polls
      ∧ Forall (polling apiKey) polls
      ∧ ((operation' = operation ∧ polls = [])
         ∨ ∃ earlier previous,
             polls = earlier ++ [SetTimeout 5000;
                                 GetVideosOperation apiKey previous]
             ∧ getVideosOperation provider
                 (tr ++ earlier ++ [SetTimeout 5000]) apiKey previous
               = inr operation').
Proof.
  induction budget as [| budget IH]; intros operation tr operation' tr' Hrun;
    simpl in Hrun; destruct (done operation) eqn:Hdone.
  - injection Hrun as <- <-. split; [done |].
    exists []. rewrite app_nil_r. split; [done |]. split; [done |]. by left.
  - discriminate.
  - injection Hrun as <- <-. split; [done |].
    exists []. rewrite app_nil_r. split; [done |]. split; [done |]. by left.
  - unfold bind, emit, modify, call_getVideosOperation, of_answer in Hrun.
    unfold bind, emit, modify in Hrun.
    destruct (getVideosOperation provider _ apiKey operation)
      as [e | next] eqn:Hanswer;
      cbn [throw ret] in Hrun; [discriminate |].
    apply IH in Hrun as (Hd & polls & -> & Hpolls & Hlast). split; [done |].
    exists (SetTimeout 5000 :: GetVideosOperation apiKey operation :: polls).
    split; [by rewrite <- !app_assoc |].
    split; [repeat constructor; done |].
    right. destruct Hlast as [[-> ->] | (earlier & previous & -> & Hlast)].
    + exists [], operation. split; [done |]. exact Hanswer.
    + exists (SetTimeout 5000 :: GetVideosOperation apiKey operation
                :: earlier), previous.
      split; [done |]. rewrite <- Hlast. f_equal.
      by rewrite <- !app_assoc.
Qed.

(** The locator read by [videoUri] is the [uri] of the [video] of the first
    of the [generatedVideos] of the [response]. *)
Lemma videoUri_Some (operation : Operation) (locator : string) :
  videoUri operation = Some locator →
  ∃ r videos first v,
    response operation = Some r
    ∧ generatedVideos r = Some videos
    ∧ videos !! 0 = Some first
    ∧ video first = Some v
    ∧ uri v = Some locator.
Proof.
  unfold videoUri. intros Huri.
  apply bind_Some in Huri as (r & Hr & Huri).
  apply bind_Some in Huri as (videos & Hvideos & Huri).
  apply bind_Some in Huri as (first & Hfirst & Huri).
  apply bind_Some in Huri as (v & Hv & Huri).
  exists r, videos, first, v. done.
Qed.

Lemma tryGenerateVideo_past_end budget retryIdx tr :
  length (video_apiKeys config) ≤ retryIdx →
  attempt_video (S budget) retryIdx tr
  = (Rejected (Error "All API keys exhausted."), tr).
Proof.
  intros Hge. simpl. rewrite bool_decide_eq_true_2 by done. reflexivity.
Qed.

(** One attempt of the video variant within the list. *)
Lemma tryGenerateVideo_attempt budget retryIdx tr :
  retryIdx < length (video_apiKeys config) →
  attempt_video (S budget) retryIdx tr
  = let apiKey := video_apiKeys config !! retryIdx in
    let tr1 := tr ++ [GenerateVideos (video_request prompt apiKey)] in
    match generateVideos provider tr (video_request prompt apiKey) with
    | inl e => recover budget retryIdx e tr1
    | inr operation =>
        match poll provider budget apiKey operation tr1 with
        | (Resolved operation', tr2) =>
            match videoUri operation' with
            | Some locator =>
                if truthy locator
                then (Resolved (locator +:+ "&key=" +:+ interpolate apiKey), tr2)
                else recover budget retryIdx
                       (Error "Failed to generate video URI") tr2
            | None =>
                recover budget retryIdx
                  (Error "Failed to generate video URI") tr2
            end
        | (Rejected e, tr2) => recover budget retryIdx e tr2
        | (Unsettled, tr2) => (Unsettled, tr2)
        end
    end.
Proof.
  intros Hlt. cbn [tryGenerateVideo].
  rewrite bool_decide_eq_false_2 by lia.
  unfold try_catch, call_generateVideos, of_answer, emit, modify, bind.
  destruct (generateVideos provider tr _) as [e | operation];
    cbn [throw ret].
  - destruct (quota_or_denied e); reflexivity.
  - destruct (poll provider budget _ operation _) as [[operation' | e |] tr2].
    + destruct (videoUri operation') as [locator |];
        [destruct (truthy locator) |]; reflexivity.
    + destruct (quota_or_denied e); reflexivity.
    + reflexivity.
Qed.

(** A resolved call returns the locator the service reported for the last
    job the call started, followed by ["&key="] and the key of that job. *)
Lemma tryGenerateVideo_resolved budget : ∀ retryIdx tr s tr',
  attempt_video budget retryIdx tr = (Resolved s, tr') →
  ∃ i key before submitted rounds polls operation r videos first v locator,
    video_apiKeys config !! i = Some key
    ∧ generateVideos provider before (video_request prompt (Some key))
      = inr submitted
    ∧ poll provider rounds (Some key) submitted
        (before ++ [GenerateVideos (video_request prompt (Some key))])
      = (Resolved operation, tr')
    ∧ tr' = before ++ GenerateVideos (video_request prompt (Some key)) :: polls
    ∧ Forall (polling (Some key)) polls
    ∧ ((operation = submitted ∧ polls = [])
       ∨ ∃ earlier previous,
           polls = earlier ++ [SetTimeout 5000;
                               GetVideosOperation (Some key) previous]
           ∧ getVideosOperation provider
               (before
                ++ GenerateVideos (video_request prompt (Some key))
                :: earlier ++ [SetTimeout 5000])
               (Some key) previous
             = inr operation)
    ∧ done operation = true
    ∧ response operation = Some r
    ∧ generatedVideos r = Some videos
    ∧ videos !! 0 = Some first
    ∧ video first = Some v
    ∧ uri v = Some locator
    ∧ locator ≠ ""
    ∧ s = locator +:+ "&key=" +:+ key
    ∧ s ≠ locator.
Proof.
  induction budget as [| budget IH]; intros retryIdx tr s tr' Hrun;
    [discriminate |].
  destruct (decide (length (video_apiKeys config) ≤ retryIdx)) as [Hge | Hlt].
  { rewrite tryGenerateVideo_past_end in Hrun by done. discriminate. }
  rewrite tryGenerateVideo_attempt in Hrun by lia. cbv zeta in Hrun.
  assert (Hrec : ∀ e trx,
            recover budget retryIdx e trx = (Resolved s, tr') →
            attempt_video budget (retryIdx + 1) (trx ++ [ConsoleError e])
            = (Resolved s, tr')).
  { intros e trx. destruct (quota_or_denied e); [done | discriminate]. }
  destruct (lookup_lt_is_Some_2 (video_apiKeys config) retryIdx
              ltac:(lia)) as [key Hkey].
  rewrite Hkey in Hrun.
  destruct (generateVideos provider tr _) as [e | submitted] eqn:Hjob;
    [by apply Hrec, IH in Hrun |].
  destruct (poll provider budget _ submitted _)
    as [[operation | e |] tr2] eqn:Hpoll;
    [| by apply Hrec, IH in Hrun | discriminate].
  pose proof Hpoll as Hloop.
  apply poll_resolved in Hloop as (Hdone & polls & -> & Hpolls & Hlast).
  destruct (videoUri operation) as [locator |] eqn:Huri;
    [| by apply Hrec, IH in Hrun].
  destruct (truthy locator) eqn:Hlocator; [| by apply Hrec, IH in Hrun].
  injection Hrun as <- <-.
  apply videoUri_Some in Huri as (r & videos & first & v & Huri).
  exists retryIdx, key, tr, submitted, budget, polls, operation, r, videos,
    first, v, locator.
  split; [done |]. split; [done |]. split; [done |].
  split; [by rewrite <- app_assoc |]. split; [done |].
  split.
  { destruct Hlast as [Hsame | (earlier & previous & Hpolled & Hanswer)];
      [by left | right].
    exists earlier, previous. split; [done |].
    rewrite <- Hanswer. f_equal. by rewrite <- app_assoc. }
  split; [done |].
  destruct Huri as (? & ? & ? & ? & ?). do 5 (split; [done |]).
  split; [by apply truthy_nonempty |]. split; [done |].
  apply append_differs. discriminate.
Qed.

End VideoSteps.

(** C10. Whenever [generateVeoVideo] resolves, the string it returns is not
    the bare result locator. The last job the call started was submitted
    with a credential [key] of the list and accepted by the service; polling
    that job ended on a finished operation, which is the service's own
    answer (to the submission when no poll was needed, to the last poll
    otherwise); [locator] is the non-empty [uri] of the first generated
    video of that operation; and the returned string is [locator] followed
    by ["&key="] and [key]. *)
Theorem video_result_carries_credential provider prompt config budget
    tr s tr' :
  generateVeoVideo provider prompt config budget tr = (Resolved s, tr') →
  ∃ i key before submitted rounds polls operation r videos first v locator,
    video_apiKeys config !! i = Some key
    ∧ generateVideos provider before (video_request prompt (Some key))
      = inr submitted
    ∧ poll provider rounds (Some key) submitted
        (before ++ [GenerateVideos (video_request prompt (Some key))])
      = (Resolved operation, tr')
    ∧ tr' = before ++ GenerateVideos (video_request prompt (Some key)) :: polls
    ∧ Forall (polling (Some key)) polls
    ∧ ((operation = submitted ∧ polls = [])
       ∨ ∃ earlier previous,
           polls = earlier ++ [SetTimeout 5000;
                               GetVideosOperation (Some key) previous]
           ∧ getVideosOperation provider
               (before
                ++ GenerateVideos (video_request prompt (Some key))
                :: earlier ++ [SetTimeout 5000])
               (Some key) previous
             = inr operation)
    ∧ done operation = true
    ∧ response operation = Some r
    ∧ generatedVideos r = Some videos
    ∧ videos !! 0 = Some first
    ∧ video first = Some v
    ∧ uri v = Some locator
    ∧ locator ≠ ""
    ∧ s = locator +:+ "&key=" +:+ key
    ∧ s ≠ locator.
Proof.
  intros Hrun. unfold generateVeoVideo in Hrun.
  by apply tryGenerateVideo_resolved in Hrun.
Qed.

Lemma video_result_carries_credential_witness :
  generateVeoVideo Samples.throttling "a red kite" Samples.two_video_keys 3 []
  = (Resolved "https://video.example/v1?alt=media&key=keyB",
     [ GenerateVideos (video_request "a red kite" (Some "keyA"));
       ConsoleError (Foreign "ApiError: 403 Forbidden");
       GenerateVideos (video_request "a red kite" (Some "keyB"));
       SetTimeout 5000;
       GetVideosOperation (Some "keyB") Samples.running ])
  ∧ ∃ i key before submitted rounds polls operation r videos first v locator,
      video_apiKeys Samples.two_video_keys !! i = Some key
      ∧ generateVideos Samples.throttling before
          (video_request "a red kite" (Some key))
        = inr submitted
      ∧ poll Samples.throttling rounds (Some key) submitted
          (before ++ [GenerateVideos (video_request "a red kite" (Some key))])
        = (Resolved operation,
           [ GenerateVideos (video_request "a red kite" (Some "keyA"));
             ConsoleError (Foreign "ApiError: 403 Forbidden");
             GenerateVideos (video_request "a red kite" (Some "keyB"));
             SetTimeout 5000;
             GetVideosOperation (Some "keyB") Samples.running ])
      ∧ [ GenerateVideos (video_request "a red kite" (Some "keyA"));
          ConsoleError (Foreign "ApiError: 403 Forbidden");
          GenerateVideos (video_request "a red kite" (Some "keyB"));
          SetTimeout 5000;
          GetVideosOperation (Some "keyB") Samples.running ]
        = before
          ++ GenerateVideos (video_request "a red kite" (Some key)) :: polls
      ∧ Forall (polling (Some key)) polls
      ∧ ((operation = submitted ∧ polls = [])
         ∨ ∃ earlier previous,
             polls = earlier ++ [SetTimeout 5000;
                                 GetVideosOperation (Some key) previous]
             ∧ getVideosOperation Samples.throttling
                 (before
                  ++ GenerateVideos (video_request "a red kite" (Some key))
                  :: earlier ++ [SetTimeout 5000])
                 (Some key) previous
               = inr operation)
      ∧ done operation = true
      ∧ response operation = Some r
      ∧ generatedVideos r = Some videos
      ∧ videos !! 0 = Some first
      ∧ video first = Some v
      ∧ uri v = Some locator
      ∧ locator ≠ ""
      ∧ "https://video.example/v1?alt=media&key=keyB"
        = locator +:+ "&key=" +:+ key
      ∧ "https://video.example/v1?alt=media&key=keyB" ≠ locator.
Proof.
  split; [reflexivity |].
  apply (video_result_carries_credential Samples.throttling "a red kite"
           Samples.two_video_keys 3 []).
  reflexivity.
Defined.

End GatewayFacts.

(** * Properties of the configuration merge *)
Module ChatFacts.
Import Js Chat.






End ChatFacts.

(** * Properties of the session store *)
Module SessionFacts.
Import Js Async Async.Notations Session.

Lemma ge_200000_spec Date_getTime (now created : Z) (created_at : string) :
  Date_getTime created_at = Some created →
  ge_200000 (diffHours Date_getTime now created_at) = true
  ↔ (expiry_ms ≤ now - created)%Z.
Proof.
  intros Hparse. unfold diffHours, ge_200000. rewrite Hparse. simpl.
  rewrite Qle_bool_iff. unfold Qle, Qdiv, Qmult, Qinv, inject_Z, expiry_ms.
  simpl. lia.
Qed.

Lemma single_Some {A} (rows : list A) (r : A) :
  single rows = Some r → rows = [r].
Proof. destruct rows as [| x [| y rows]]; simpl; congruence. Qed.

(** A row returned by a lookup is in the table and passes the filters. *)
Lemma matching_Some (P : Row.t → Prop) `{∀ r, Decision (P r)} rows r :
  matching P rows = Some r → r ∈ rows ∧ P r.
Proof.
  intros Hone%single_Some.
  assert (r ∈ filter P rows) as Hin by (rewrite Hone; set_solver).
  by apply list_elem_of_filter in Hin as [? ?].
Qed.

(** When no row passes the filters the lookup answers [null]. *)
Lemma matching_absent (P : Row.t → Prop) `{∀ r, Decision (P r)} rows :
  (∀ r, r ∈ rows → ¬ P r) → matching P rows = None.
Proof.
  intros Hnone. unfold matching.
  destruct (filter P rows) as [| r rest] eqn:Hfilter; [done |].
  assert (r ∈ filter P rows) as Hin by (rewrite Hfilter; set_solver).
  apply list_elem_of_filter in Hin as [HP Hr]. by destruct (Hnone r).
Qed.

Lemma truthy_opt_Some (s : string) : s ≠ "" → truthy_opt (Some s) = true.
Proof. destruct s; simpl; congruence. Qed.

(** C4. For the row with role ["user"] that the lookup of [loginClient]
    returns for the key: when at least 200,000 hours have passed since its
    creation the login is refused as expired and nothing changes; when less
    has passed (down to one millisecond less) the login succeeds, the user
    becomes the current user and the key is stored in the slot
    ["central_gpt_active_session"]. *)
Theorem loginClient_expiry Date_getTime (now : Z) (key : string) (w : World)
    (user : Row.t) (created : Z) :
  matching (λ r, Row.access_key r = key ∧ Row.role r = "user") (users w)
  = Some user →
  Date_getTime (Row.created_at user) = Some created →
  Row.role user = "user"
  ∧ ((expiry_ms ≤ now - created)%Z →
     loginClient Date_getTime now key w
     = (Resolved {| success := false;
                    message := Some "Access Key expired (200.000 hours)." |},
        w))
  ∧ ((now - created < expiry_ms)%Z →
     loginClient Date_getTime now key w
     = (Resolved {| success := true; message := None |},
        {| currentUser := Some (mapped user);
           localStorage := <[session_slot := key]> (localStorage w);
           users := users w;
           app_config := app_config w |})).
Proof.
  intros Hmatch Hparse.
  split; [apply matching_Some in Hmatch; tauto |].
  pose proof (ge_200000_spec Date_getTime now created _ Hparse) as Hspec.
  unfold loginClient, select_single, bind, get, ret. rewrite Hmatch.
  split; intros Helapsed.
  - apply Hspec in Helapsed. rewrite Helapsed. reflexivity.
  - assert (ge_200000 (diffHours Date_getTime now (Row.created_at user))
            = false) as ->
      by (apply not_true_iff_false; rewrite Hspec; lia).
    reflexivity.
Qed.

Lemma loginClient_expiry_witness :
  loginClient Samples.Date_getTime (1000000000000 + expiry_ms)
    "VALID-KEY-123" Samples.fresh
  = (Resolved {| success := false;
                 message := Some "Access Key expired (200.000 hours)." |},
     Samples.fresh)
  ∧ loginClient Samples.Date_getTime (1000000000000 + expiry_ms - 1)
      "VALID-KEY-123" Samples.fresh
    = (Resolved {| success := true; message := None |},
       {| currentUser := Some (mapped Samples.alice);
          localStorage := {[ session_slot := "VALID-KEY-123" ]};
          users := users Samples.fresh;
          app_config := app_config Samples.fresh |}).
Proof.
  split.
  - apply (loginClient_expiry Samples.Date_getTime
             (1000000000000 + expiry_ms) "VALID-KEY-123" Samples.fresh
             Samples.alice 1000000000000).
    + reflexivity.
    + reflexivity.
    + vm_compute. discriminate.
  - apply (loginClient_expiry Samples.Date_getTime
             (1000000000000 + expiry_ms - 1) "VALID-KEY-123" Samples.fresh
             Samples.alice 1000000000000).
    + reflexivity.
    + reflexivity.
    + vm_compute. reflexivity.
Defined.

(** The login of a user created five hours earlier. *)
Example loginClient_five_hours_old :
  loginClient Samples.Date_getTime (1000000000000 + 5 * 3600000)
    "VALID-KEY-123" Samples.fresh
  = (Resolved {| success := true; message := None |},
     {| currentUser := Some (mapped Samples.alice);
        localStorage := {[ session_slot := "VALID-KEY-123" ]};
        users := users Samples.fresh;
        app_config := app_config Samples.fresh |}).
Proof. vm_compute. reflexivity. Qed.

Example loginClient_unknown_key :
  loginClient Samples.Date_getTime 1000000000000 "ADMIN-KEY" Samples.fresh
  = (Resolved {| success := false; message := Some "Invalid Access Key." |},
     Samples.fresh).
Proof. vm_compute. reflexivity. Qed.

(** C5. For a row with role ["admin"], whatever its creation time and the
    current time: [loginAdmin] succeeds as soon as its lookup returns the
    row, and [restoreSession] makes the row's user the current user and
    leaves the persisted key in place. *)
Theorem admin_exempt_from_expiry Date_getTime (now : Z) (w : World)
    (user : Row.t) :
  Row.role user = "admin" →
  (∀ username key,
     matching (λ r, Row.username r = username ∧ Row.access_key r = key
                    ∧ Row.role r = "admin") (users w)
     = Some user →
     loginAdmin username key w
     = (Resolved {| success := true; message := None |},
        {| currentUser := Some (mapped user);
           localStorage := <[session_slot := key]> (localStorage w);
           users := users w;
           app_config := app_config w |}))
  ∧ (∀ key,
       localStorage w !! session_slot = Some key →
       key ≠ "" →
       matching (λ r, Row.access_key r = key) (users w) = Some user →
       restoreSession Date_getTime now w
       = (Resolved tt,
          {| currentUser := Some (mapped user);
             localStorage := localStorage w;
             users := users w;
             app_config := app_config w |})).
Proof.
  intros Hadmin. split.
  - intros username key Hmatch.
    unfold loginAdmin, select_single, bind, get, ret. rewrite Hmatch.
    reflexivity.
  - intros key Hslot Hkey Hmatch.
    unfold restoreSession, getItem, select_single, bind, get, ret.
    rewrite Hslot, (truthy_opt_Some key Hkey). cbn [negb default from_option id].
    rewrite Hmatch, Hadmin, andb_false_r. reflexivity.
Qed.

Lemma admin_exempt_from_expiry_witness :
  loginAdmin "root" "ADMIN-KEY" Samples.fresh
  = (Resolved {| success := true; message := None |},
     {| currentUser := Some (mapped Samples.root);
        localStorage := {[ session_slot := "ADMIN-KEY" ]};
        users := users Samples.fresh;
        app_config := app_config Samples.fresh |})
  ∧ restoreSession Samples.Date_getTime (1000000000000 + 2 * expiry_ms)
      (Samples.returning "ADMIN-KEY")
    = (Resolved tt,
       {| currentUser := Some (mapped Samples.root);
          localStorage := {[ session_slot := "ADMIN-KEY" ]};
          users := users Samples.fresh;
          app_config := app_config Samples.fresh |}).
Proof.
  split.
  - apply (proj1 (admin_exempt_from_expiry Samples.Date_getTime 0
                    Samples.fresh Samples.root eq_refl)).
    reflexivity.
  - apply (proj2 (admin_exempt_from_expiry Samples.Date_getTime
                    (1000000000000 + 2 * expiry_ms)
                    (Samples.returning "ADMIN-KEY") Samples.root eq_refl)
             "ADMIN-KEY").
    + reflexivity.
    + discriminate.
    + reflexivity.
Defined.

(** C6. When [restoreSession] finds a persisted key, looks it up, and the
    lookup returns no row, the call resolves (it does not reject), the slot
    is removed from local storage and the current user is left as it was, so
    no session is established. *)
Theorem restoreSession_forgets_deleted_user Date_getTime (now : Z)
    (w : World) (key : string) :
  localStorage w !! session_slot = Some key →
  key ≠ "" →
  matching (λ r, Row.access_key r = key) (users w) = None →
  ∃ w',
    restoreSession Date_getTime now w = (Resolved tt, w')
    ∧ localStorage w' = delete session_slot (localStorage w)
    ∧ localStorage w' !! session_slot = None
    ∧ currentUser w' = currentUser w
    ∧ users w' = users w
    ∧ app_config w' = app_config w.
Proof.
  intros Hslot Hkey Hmatch. eexists. split.
  - unfold restoreSession, getItem, select_single, bind, get, ret.
    rewrite Hslot, (truthy_opt_Some key Hkey). cbn [negb default from_option id].
    rewrite Hmatch. reflexivity.
  - cbn. repeat split. apply lookup_delete_eq.
Qed.

Lemma restoreSession_forgets_deleted_user_witness :
  ∃ w',
    restoreSession Samples.Date_getTime 1000000000000
      (Samples.returning "GONE-KEY")
    = (Resolved tt, w')
    ∧ localStorage w'
      = delete session_slot (localStorage (Samples.returning "GONE-KEY"))
    ∧ localStorage w' !! session_slot = None
    ∧ currentUser w' = None
    ∧ users w' = users (Samples.returning "GONE-KEY")
    ∧ app_config w' = app_config (Samples.returning "GONE-KEY").
Proof.
  apply (restoreSession_forgets_deleted_user Samples.Date_getTime
           1000000000000 (Samples.returning "GONE-KEY") "GONE-KEY").
  - reflexivity.
  - discriminate.
  - reflexivity.
Defined.

(** An expired ordinary user is logged out on restoration. *)
Example restoreSession_expired_user :
  restoreSession Samples.Date_getTime (1000000000000 + expiry_ms)
    (Samples.returning "VALID-KEY-123")
  = (Resolved tt, Samples.fresh).
Proof. vm_compute. reflexivity. Qed.

(** An empty persisted value counts as no key: nothing is looked up and
    nothing is cleared. *)
Example restoreSession_blank_key :
  restoreSession Samples.Date_getTime 1000000000000 (Samples.returning "")
  = (Resolved tt, Samples.returning "").
Proof. vm_compute. reflexivity. Qed.

Lemma dbUpdate_lacks_persona (newConfig : PartialConfig.t) :
  dbUpdate newConfig !! "ai_persona" = None.
Proof.
  unfold dbUpdate. destruct newConfig as [name persona dev keys avatar]. simpl.
  destruct name as [[| ? ?] |], dev as [[| ? ?] |], avatar as [[| ? ?] |],
    keys as [keys |];
    by simplify_map_eq.
Qed.

Lemma dbUpdate_columns (newConfig : PartialConfig.t) :
  dom (dbUpdate newConfig)
  ⊆ ({[ "ai_name"; "dev_name"; "avatar_url"; "api_keys" ]} : gset string).
Proof.
  unfold dbUpdate. destruct newConfig as [name persona dev keys avatar]. simpl.
  destruct name as [[| ? ?] |], dev as [[| ? ?] |], avatar as [[| ? ?] |],
    keys as [keys |];
    simpl; rewrite ?dom_insert_L, dom_empty_L; intros column;
    rewrite ?elem_of_union, ?elem_of_singleton, ?elem_of_empty; tauto.
Qed.

Lemma update_row_keeps_persona (newConfig : PartialConfig.t)
    (row : gmap string Json) :
  update_row (dbUpdate newConfig) row !! "ai_persona" = row !! "ai_persona".
Proof.
  unfold update_row. repeat case_match; try done.
  apply lookup_union_r, dbUpdate_lacks_persona.
Qed.

(** C9. The update object built by [updateGlobalConfig] has no persona
    column, whatever the supplied configuration holds: its columns are among
    the AI name, the developer name, the avatar reference and the credential
    list. The call resolves, and every row of the remote configuration table
    keeps the persona it had. *)
Theorem updateGlobalConfig_keeps_persona (newConfig : PartialConfig.t)
    (w : World) :
  dbUpdate newConfig !! "ai_persona" = None
  ∧ dom (dbUpdate newConfig)
    ⊆ ({[ "ai_name"; "dev_name"; "avatar_url"; "api_keys" ]} : gset string)
  ∧ ∃ w',
      updateGlobalConfig newConfig w = (Resolved tt, w')
      ∧ (λ row : gmap string Json, row !! "ai_persona") <$> app_config w'
        = (λ row : gmap string Json, row !! "ai_persona") <$> app_config w
      ∧ currentUser w' = currentUser w
      ∧ localStorage w' = localStorage w
      ∧ users w' = users w.
Proof.
  split; [apply dbUpdate_lacks_persona |].
  split; [apply dbUpdate_columns |].
  eexists. split; [reflexivity |]. cbn. repeat split.
  rewrite <- list_fmap_compose. apply list_fmap_ext.
  intros i row _. apply update_row_keeps_persona.
Qed.

(** A supplied persona is dropped while the supplied name is written. *)
Example updateGlobalConfig_drops_supplied_persona :
  (updateGlobalConfig
     {| PartialConfig.aiName := Some "Nova";
        PartialConfig.aiPersona := Some "Be brief.";
        PartialConfig.devName := None;
        PartialConfig.apiKeys := Some [];
        PartialConfig.avatarUrl := Some "" |}
     Samples.fresh).2
  = {| currentUser := None;
       localStorage := ∅;
       users := users Samples.fresh;
       app_config :=
         [ <["api_keys" := JStrings []]>
             (<["ai_name" := JString "Nova"]> Samples.config_row) ] |}.
Proof. vm_compute. reflexivity. Qed.

End SessionFacts.

(** * Further properties of the completion gateway *)
Module GatewayMore.
Import Js Async Async.Notations Gemini Traces GatewayFacts.

Section Runs.
Variables (provider : Provider) (message : string)
          (images : list ImageAttachment) (history : list Content)
          (config : ChatConfig).

Local Abbreviation attempt :=
  (tryGenerate provider message images history config).
Local Abbreviation call_at i :=
  (request message images history config (apiKeys config !! i)).
Local Abbreviation sent := (attempts message images history config).

(** From position [i] on, a run sends the requests of positions [i], [i+1],
    ... up to some position, without gap or repetition. *)
Lemma tryGenerate_requests budget : ∀ i tr,
  i ≤ length (apiKeys config) →
  ∃ k, i ≤ k ≤ length (apiKeys config)
       ∧ (attempt budget i (tr ++ sent i)).2 = tr ++ sent k.
Proof.
  induction budget as [| budget IH]; intros i tr Hi.
  - exists i. split; [lia | reflexivity].
  - destruct (decide (length (apiKeys config) ≤ i)) as [Hge | Hlt].
    { exists i. rewrite tryGenerate_past_end by done. split; [lia | done]. }
    destruct (decide (currentParts message images = [])) as [Hnil | Hparts].
    { exists i. rewrite tryGenerate_nothing_to_send by (done || lia).
      split; [lia | done]. }
    rewrite tryGenerate_attempt by (done || lia). cbv zeta.
    rewrite <- app_assoc, <- attempts_S by lia.
    destruct (generateContent provider _ _) as [e | r].
    + destruct (quota_or_denied e).
      * replace (i + 1) with (S i) by lia.
        destruct (IH (S i) tr ltac:(lia)) as (k & Hk & Hrun).
        exists k. split; [lia | done].
      * exists (S i). split; [lia | done].
    + exists (S i). split; [lia |].
      destruct (text r) as [t |]; [destruct (truthy t) |]; done.
Qed.

(** A resolved run: the answer belongs to the last request, and every
    request before it failed over. *)
Lemma tryGenerate_resolved budget : ∀ i tr t tr',
  attempt budget i (tr ++ sent i) = (Resolved t, tr') →
  ∃ k, i ≤ k < length (apiKeys config)
       ∧ tr' = tr ++ sent (S k)
       ∧ generateContent provider (tr ++ sent k) (call_at k)
         = inr {| text := Some t |}
       ∧ ∀ j, i ≤ j < k →
           ∃ e, generateContent provider (tr ++ sent j) (call_at j) = inl e
                ∧ quota_or_denied e = true.
Proof.
  induction budget as [| budget IH]; intros i tr t tr' Hrun; [discriminate |].
  destruct (decide (length (apiKeys config) ≤ i)) as [Hge | Hlt].
  { rewrite tryGenerate_past_end in Hrun by done. discriminate. }
  destruct (decide (currentParts message images = [])) as [Hnil | Hparts].
  { rewrite tryGenerate_nothing_to_send in Hrun by (done || lia).
    discriminate. }
  rewrite tryGenerate_attempt in Hrun by (done || lia). cbv zeta in Hrun.
  rewrite <- app_assoc, <- attempts_S in Hrun by lia.
  destruct (generateContent provider _ _) as [e | r] eqn:Hanswer.
  - destruct (quota_or_denied e) eqn:Hquota; [| discriminate].
    replace (i + 1) with (S i) in Hrun by lia.
    apply IH in Hrun as (k & Hk & Htr & Hlast & Hbefore).
    exists k. split; [lia |]. split; [done |]. split; [done |].
    intros j Hj. destruct (decide (j = i)) as [-> | Hne]; [eauto |].
    apply Hbefore. lia.
  - destruct r as [[s |]]; cbn [text] in Hrun; [| discriminate].
    destruct (truthy s); [| discriminate].
    injection Hrun as -> <-.
    exists i. split; [lia |]. split; [done |]. split; [done |].
    intros j Hj. lia.
Qed.

(** A rejection never carries a failure the [catch] block would retry. *)
Lemma tryGenerate_rejected budget : ∀ i tr e tr',
  attempt budget i tr = (Rejected e, tr') → quota_or_denied e = false.
Proof.
  induction budget as [| budget IH]; intros i tr e tr' Hrun; [discriminate |].
  destruct (decide (length (apiKeys config) ≤ i)) as [Hge | Hlt].
  { rewrite tryGenerate_past_end in Hrun by done. by injection Hrun as <- _. }
  destruct (decide (currentParts message images = [])) as [Hnil | Hparts].
  { rewrite tryGenerate_nothing_to_send in Hrun by (done || lia).
    by injection Hrun as <- _. }
  rewrite tryGenerate_attempt in Hrun by (done || lia). cbv zeta in Hrun.
  destruct (generateContent provider _ _) as [e0 | r].
  - destruct (quota_or_denied e0) eqn:Hquota; [eauto |].
    by injection Hrun as <- _.
  - destruct (text r) as [s |]; [destruct (truthy s) |];
      try discriminate; by injection Hrun as <- _.
Qed.

End Runs.

(** X1. Whatever the service answers, the requests of one call are those of
    the first [k] credentials for some [k] up to the length of the list: one
    request per credential, in list order, none skipped, none repeated, and
    nothing else is added to the trace. *)
Theorem requests_follow_the_list provider message images history config tr :
  ∃ k, k ≤ length (apiKeys config)
       ∧ (sendMessageToGemini provider message images history config tr).2
         = tr ++ attempts message images history config k
       ∧ length (attempts message images history config k) = k.
Proof.
  destruct (tryGenerate_requests provider message images history config
              (S (length (apiKeys config))) 0 tr ltac:(lia))
    as (k & Hk & Hrun).
  change (attempts message images history config 0) with (@nil event)
    in Hrun.
  rewrite app_nil_r in Hrun.
  exists k. split; [lia |]. split; [exact Hrun |].
  unfold attempts. rewrite length_fmap, length_take. lia.
Qed.

(** X2. A text returned by the call is the text the service answered to the
    last request of the call, and every earlier request of the call failed
    with a failure mentioning 429 or 403. *)
Theorem answer_comes_from_last_request provider message images history
    config tr t tr' :
  sendMessageToGemini provider message images history config tr
  = (Resolved t, tr') →
  ∃ k, k < length (apiKeys config)
       ∧ tr' = tr ++ attempts message images history config (S k)
       ∧ generateContent provider
           (tr ++ attempts message images history config k)
           (request message images history config (apiKeys config !! k))
         = inr {| text := Some t |}
       ∧ ∀ j, j < k →
           ∃ e, generateContent provider
                  (tr ++ attempts message images history config j)
                  (request message images history config
                     (apiKeys config !! j))
                = inl e
                ∧ quota_or_denied e = true.
Proof.
  intros Hrun. unfold sendMessageToGemini in Hrun.
  pose proof (tryGenerate_resolved provider message images history config
                (S (length (apiKeys config))) 0 tr t tr') as Hres.
  change (attempts message images history config 0) with (@nil event)
    in Hres.
  rewrite app_nil_r in Hres.
  destruct (Hres Hrun) as (k & Hk & Htr & Hlast & Hbefore).
  exists k. split; [lia |]. split; [done |]. split; [done |].
  intros j Hj. apply Hbefore. lia.
Qed.

Lemma answer_comes_from_last_request_witness :
  ∃ k, k < 2
       ∧ attempts "hello" [] [] Samples.two_keys 2
         = [] ++ attempts "hello" [] [] Samples.two_keys (S k)
       ∧ generateContent Samples.throttling
           ([] ++ attempts "hello" [] [] Samples.two_keys k)
           (request "hello" [] [] Samples.two_keys
              (apiKeys Samples.two_keys !! k))
         = inr {| text := Some "hi" |}
       ∧ ∀ j, j < k →
           ∃ e, generateContent Samples.throttling
                  ([] ++ attempts "hello" [] [] Samples.two_keys j)
                  (request "hello" [] [] Samples.two_keys
                     (apiKeys Samples.two_keys !! j))
                = inl e
                ∧ quota_or_denied e = true.
Proof.
  apply (answer_comes_from_last_request Samples.throttling "hello" [] []
           Samples.two_keys [] "hi"
           (attempts "hello" [] [] Samples.two_keys 2)).
  reflexivity.
Defined.

(** X3. The call never rejects with a failure whose rendering mentions 429
    or 403: such failures are either retried with the next credential or
    replaced by "All API keys exhausted.". *)
Theorem quota_failures_never_surface provider message images history config
    tr e tr' :
  sendMessageToGemini provider message images history config tr
  = (Rejected e, tr') →
  quota_or_denied e = false.
Proof. apply tryGenerate_rejected. Qed.

Lemma quota_failures_never_surface_witness :
  sendMessageToGemini Samples.denying "hello" [] [] Samples.two_keys []
  = (Rejected (Error "All API keys exhausted."),
     attempts "hello" [] [] Samples.two_keys 2)
  ∧ quota_or_denied (Error "All API keys exhausted.") = false.
Proof.
  split; [reflexivity |].
  apply (quota_failures_never_surface Samples.denying "hello" [] []
           Samples.two_keys [] (Error "All API keys exhausted.")
           (attempts "hello" [] [] Samples.two_keys 2)).
  reflexivity.
Defined.

(** X4. When the attempts before position [i] fail over and the attempt at
    position [i] fails with a failure that mentions neither 429 nor 403, the
    call rejects with that very failure and the request at position [i] is
    the last one it sends. *)
Theorem other_failure_is_final provider message images history config
    tr i e :
  i < length (apiKeys config) →
  currentParts message images ≠ [] →
  (∀ j, j < i →
     ∃ e', generateContent provider
             (tr ++ attempts message images history config j)
             (request message images history config (apiKeys config !! j))
           = inl e'
           ∧ quota_or_denied e' = true) →
  generateContent provider
    (tr ++ attempts message images history config i)
    (request message images history config (apiKeys config !! i))
  = inl e →
  quota_or_denied e = false →
  sendMessageToGemini provider message images history config tr
  = (Rejected e, tr ++ attempts message images history config (S i)).
Proof.
  intros Hi Hparts Hfail Hanswer Hother. unfold sendMessageToGemini.
  replace (S (length (apiKeys config)))
    with (i + S (length (apiKeys config) - i)) by lia.
  rewrite tryGenerate_skips_from_start by (done || lia).
  rewrite tryGenerate_attempt by (done || lia). cbv zeta.
  rewrite Hanswer, Hother, <- app_assoc, <- attempts_S by lia.
  reflexivity.
Qed.

Lemma other_failure_is_final_witness :
  sendMessageToGemini MoreSamples.offline "hello" [] [] Samples.two_keys []
  = (Rejected (Foreign "TypeError: Failed to fetch"),
     [] ++ attempts "hello" [] [] Samples.two_keys 1).
Proof.
  apply (other_failure_is_final MoreSamples.offline "hello" [] []
           Samples.two_keys [] 0 (Foreign "TypeError: Failed to fetch")).
  - simpl. lia.
  - discriminate.
  - intros j Hj. lia.
  - reflexivity.
  - reflexivity.
Defined.

End GatewayMore.

(** * Further properties of the video variant *)
Module VideoMore.
Import Js Async Async.Notations Gemini Traces GatewayFacts.

Lemma jobs_app (a b : trace) : jobs (a ++ b) = jobs a ++ jobs b.
Proof. apply omap_app. Qed.

Lemma jobs_polling apiKey (polls : trace) :
  Forall (polling apiKey) polls → jobs polls = [].
Proof.
  induction 1 as [| ev polls Hev _ IH]; [done |].
  destruct ev; simpl in *; done.
Qed.

Section VideoRuns.
Variables (provider : Provider) (prompt : string) (config : VideoConfig).

Local Abbreviation attempt_video := (tryGenerateVideo provider prompt config).
Local Abbreviation job key := (video_request prompt (Some key)).

(** Whatever its outcome, the polling loop only adds waits and polls made
    with the client it was given. *)
Lemma poll_trace budget apiKey : ∀ operation tr,
  ∃ polls, (poll provider budget apiKey operation tr).2 = tr ++ polls
           ∧ Forall (polling apiKey) polls.
Proof.
  induction budget as [| budget IH]; intros operation tr; simpl;
    destruct (done operation).
  - exists []. by rewrite app_nil_r.
  - exists []. by rewrite app_nil_r.
  - exists []. by rewrite app_nil_r.
  - unfold call_getVideosOperation, of_answer, emit, modify, bind.
    destruct (getVideosOperation provider _ apiKey operation) as [e | next];
      cbn [throw ret].
    + exists [SetTimeout 5000; GetVideosOperation apiKey operation].
      split; [by rewrite <- app_assoc | repeat constructor; done].
    + destruct (IH next ((tr ++ [SetTimeout 5000])
                         ++ [GetVideosOperation apiKey operation]))
        as (polls & Hrun & Hpolls).
      exists (SetTimeout 5000 :: GetVideosOperation apiKey operation :: polls).
      split; [by rewrite Hrun, <- !app_assoc | repeat constructor; done].
Qed.

(** The jobs a run starts from position [i] on are those of the credentials
    at positions [i], [i+1], ..., in order. *)
Lemma tryGenerateVideo_jobs budget : ∀ i tr,
  ∃ k, jobs (attempt_video budget i tr).2
       = jobs tr ++ ((λ key, job key) <$> take k (drop i (video_apiKeys config))).
Proof.
  induction budget as [| budget IH]; intros i tr.
  - exists 0. simpl. by rewrite app_nil_r.
  - destruct (decide (length (video_apiKeys config) ≤ i)) as [Hge | Hlt].
    { exists 0. rewrite tryGenerateVideo_past_end by done. simpl.
      by rewrite app_nil_r. }
    rewrite tryGenerateVideo_attempt by lia. cbv zeta.
    destruct (lookup_lt_is_Some_2 (video_apiKeys config) i ltac:(lia))
      as [key Hkey].
    rewrite Hkey, (drop_S _ _ _ Hkey).
    assert (Hrec : ∀ e trx,
              jobs trx = jobs tr ++ [job key] →
              ∃ k, jobs (if quota_or_denied e
                         then attempt_video budget (i + 1)
                                (trx ++ [ConsoleError e])
                         else (Rejected e, trx ++ [ConsoleError e])).2
                   = jobs tr
                     ++ ((λ key, job key)
                           <$> take k (key :: drop (S i) (video_apiKeys config)))).
    { intros e trx Htrx. destruct (quota_or_denied e).
      - destruct (IH (i + 1) (trx ++ [ConsoleError e])) as (k & Hk).
        exists (S k). rewrite Hk, jobs_app, Htrx. simpl.
        rewrite app_nil_r, <- app_assoc. simpl.
        by replace (i + 1) with (S i) by lia.
      - exists 1. simpl. rewrite jobs_app, Htrx. simpl.
        by rewrite app_nil_r. }
    assert (Hfirst : jobs (tr ++ [GenerateVideos (job key)])
                     = jobs tr ++ [job key])
      by (by rewrite jobs_app).
    destruct (generateVideos provider tr _) as [e | operation]; [eauto |].
    destruct (poll_trace budget (Some key) operation
                (tr ++ [GenerateVideos (job key)]))
      as (polls & Hpoll & Hpolls).
    destruct (poll provider budget _ operation _)
      as [[operation' | e |] tr2]; simpl in Hpoll; subst tr2.
    + assert (Hafter : jobs ((tr ++ [GenerateVideos (job key)]) ++ polls)
                       = jobs tr ++ [job key])
        by (by rewrite jobs_app, (jobs_polling _ _ Hpolls), app_nil_r).
      destruct (videoUri operation') as [locator |];
        [destruct (truthy locator) |]; eauto.
      exists 1. simpl. by rewrite Hafter.
    + apply Hrec.
      by rewrite jobs_app, (jobs_polling _ _ Hpolls), app_nil_r.
    + exists 1. simpl.
      by rewrite jobs_app, (jobs_polling _ _ Hpolls), app_nil_r, Hfirst.
Qed.

(** A rejection never carries a failure the [catch] block would retry. *)
Lemma tryGenerateVideo_rejected budget : ∀ i tr e tr',
  attempt_video budget i tr = (Rejected e, tr') → quota_or_denied e = false.
Proof.
  induction budget as [| budget IH]; intros i tr e tr' Hrun; [discriminate |].
  destruct (decide (length (video_apiKeys config) ≤ i)) as [Hge | Hlt].
  { rewrite tryGenerateVideo_past_end in Hrun by done.
    by injection Hrun as <- _. }
  rewrite tryGenerateVideo_attempt in Hrun by lia. cbv zeta in Hrun.
  assert (Hrec : ∀ e0 trx,
            (if quota_or_denied e0
             then attempt_video budget (i + 1) (trx ++ [ConsoleError e0])
             else (Rejected e0, trx ++ [ConsoleError e0]))
            = (Rejected e, tr') →
            quota_or_denied e = false).
  { intros e0 trx Hrec. destruct (quota_or_denied e0) eqn:Hquota; [eauto |].
    by injection Hrec as <- _. }
  destruct (generateVideos provider tr _) as [e0 | operation]; [eauto |].
  destruct (poll provider budget _ operation _)
    as [[operation' | e0 |] tr2]; [| eauto | discriminate].
  destruct (videoUri operation') as [locator |];
    [destruct (truthy locator) |]; try discriminate; eauto.
Qed.

(** When the service refuses every job with a quota or authorization
    failure, a run with enough budget goes through every remaining
    credential and ends exhausted. *)
Lemma tryGenerateVideo_all_refused budget : ∀ i tr,
  (∀ key tr0, key ∈ video_apiKeys config →
     ∃ e, generateVideos provider tr0 (job key) = inl e
          ∧ quota_or_denied e = true) →
  i ≤ length (video_apiKeys config) →
  length (video_apiKeys config) - i < budget →
  ∃ tr', attempt_video budget i tr
         = (Rejected (Error "All API keys exhausted."), tr')
         ∧ jobs tr'
           = jobs tr ++ ((λ key, job key) <$> drop i (video_apiKeys config))
         ∧ length (reports tr')
           = length (reports tr) + (length (video_apiKeys config) - i).
Proof.
  induction budget as [| budget IH]; intros i tr Hrefused Hi Hbudget; [lia |].
  destruct (decide (length (video_apiKeys config) ≤ i)) as [Hge | Hlt].
  { exists tr. rewrite tryGenerateVideo_past_end by done.
    rewrite drop_ge by done. simpl. rewrite app_nil_r.
    split; [done |]. split; [done | lia]. }
  rewrite tryGenerateVideo_attempt by lia. cbv zeta.
  destruct (lookup_lt_is_Some_2 (video_apiKeys config) i ltac:(lia))
    as [key Hkey].
  rewrite Hkey, (drop_S _ _ _ Hkey).
  destruct (Hrefused key tr) as (e & -> & ->);
    [by eapply list_elem_of_lookup_2 |].
  destruct (IH (i + 1) ((tr ++ [GenerateVideos (job key)])
                        ++ [ConsoleError e]) Hrefused
              ltac:(lia) ltac:(lia)) as (tr' & Hrun & Hjobs & Hreports).
  exists tr'. split; [done |]. split.
  - rewrite Hjobs, !jobs_app. simpl. rewrite app_nil_r, <- app_assoc. simpl.
    by replace (i + 1) with (S i) by lia.
  - rewrite Hreports. unfold reports. rewrite !omap_app. simpl.
    rewrite !length_app. simpl. lia.
Qed.

End VideoRuns.

(** X5. Whatever the service answers and however long the run is allowed to
    last, the video jobs started by one call are those of a prefix of the
    credential list: one job per credential, in list order, so never more
    jobs than credentials. *)
Theorem video_jobs_follow_the_list provider prompt config budget tr :
  ∃ k, jobs (generateVeoVideo provider prompt config budget tr).2
       = jobs tr
         ++ ((λ key, video_request prompt (Some key))
               <$> take k (video_apiKeys config))
       ∧ length (jobs (generateVeoVideo provider prompt config budget tr).2)
         ≤ length (jobs tr) + length (video_apiKeys config).
Proof.
  destruct (tryGenerateVideo_jobs provider prompt config budget 0 tr)
    as (k & Hk).
  rewrite drop_0 in Hk. exists k. split; [exact Hk |].
  unfold generateVeoVideo. rewrite Hk, length_app, length_fmap, length_take.
  lia.
Qed.

(** X6. The video variant never rejects with a failure whose rendering
    mentions 429 or 403. *)
Theorem video_quota_failures_never_surface provider prompt config budget
    tr e tr' :
  generateVeoVideo provider prompt config budget tr = (Rejected e, tr') →
  quota_or_denied e = false.
Proof. apply tryGenerateVideo_rejected. Qed.

Lemma video_quota_failures_never_surface_witness :
  generateVeoVideo MoreSamples.offline "a red kite" Samples.two_video_keys
    1 []
  = (Rejected (Error "Failed to generate video URI"),
     [ GenerateVideos (video_request "a red kite" (Some "keyA"));
       ConsoleError (Error "Failed to generate video URI") ])
  ∧ quota_or_denied (Error "Failed to generate video URI") = false.
Proof.
  split; [reflexivity |].
  apply (video_quota_failures_never_surface MoreSamples.offline "a red kite"
           Samples.two_video_keys 1 []
           (Error "Failed to generate video URI")
           [ GenerateVideos (video_request "a red kite" (Some "keyA"));
             ConsoleError (Error "Failed to generate video URI") ]).
  reflexivity.
Defined.

(** X7. When the service refuses the job of every credential of the list
    with a failure mentioning 429 or 403 (in particular when the list is
    empty), the video variant rejects with "All API keys exhausted." after
    starting exactly one job per credential, in list order, and reporting
    one error per credential. *)
Theorem video_credentials_exhausted provider prompt config budget tr :
  (∀ key tr0, key ∈ video_apiKeys config →
     ∃ e, generateVideos provider tr0 (video_request prompt (Some key))
          = inl e
          ∧ quota_or_denied e = true) →
  length (video_apiKeys config) < budget →
  ∃ tr', generateVeoVideo provider prompt config budget tr
         = (Rejected (Error "All API keys exhausted."), tr')
         ∧ jobs tr'
           = jobs tr
             ++ ((λ key, video_request prompt (Some key))
                   <$> video_apiKeys config)
         ∧ length (reports tr')
           = length (reports tr) + length (video_apiKeys config).
Proof.
  intros Hrefused Hbudget.
  destruct (tryGenerateVideo_all_refused provider prompt config budget 0 tr
              Hrefused ltac:(lia) ltac:(lia)) as (tr' & Hrun & Hjobs & Hrep).
  rewrite drop_0 in Hjobs. rewrite Nat.sub_0_r in Hrep. eauto.
Qed.

Lemma video_credentials_exhausted_witness :
  ∃ tr', generateVeoVideo Samples.denying "a red kite"
           Samples.two_video_keys 3 []
         = (Rejected (Error "All API keys exhausted."), tr')
         ∧ jobs tr'
           = jobs []
             ++ ((λ key, video_request "a red kite" (Some key))
                   <$> video_apiKeys Samples.two_video_keys)
         ∧ length (reports tr')
           = length (reports [])
             + length (video_apiKeys Samples.two_video_keys).
Proof.
  apply (video_credentials_exhausted Samples.denying "a red kite"
           Samples.two_video_keys 3 []).
  - intros key tr0 Hkey. eexists. split; reflexivity.
  - simpl. lia.
Defined.

Example video_without_credentials :
  generateVeoVideo Samples.throttling "a red kite" {| video_apiKeys := [] |}
    1 []
  = (Rejected (Error "All API keys exhausted."), []).
Proof. reflexivity. Qed.

(** X8. At any position of the list: when the job is accepted and polling
    ends with an operation that carries no locator (absent or empty), the
    call rejects with "Failed to generate video URI", reports it, and does
    not go on to the next credential. *)
Theorem missing_locator_is_final provider prompt config budget retryIdx
    tr operation operation' tr2 :
  retryIdx < length (video_apiKeys config) →
  generateVideos provider tr
    (video_request prompt (video_apiKeys config !! retryIdx))
  = inr operation →
  poll provider budget (video_apiKeys config !! retryIdx) operation
    (tr ++ [GenerateVideos
              (video_request prompt (video_apiKeys config !! retryIdx))])
  = (Resolved operation', tr2) →
  truthy_opt (videoUri operation') = false →
  tryGenerateVideo provider prompt config (S budget) retryIdx tr
  = (Rejected (Error "Failed to generate video URI"),
     tr2 ++ [ConsoleError (Error "Failed to generate video URI")]).
Proof.
  intros Hlt Hjob Hpoll Hmissing.
  rewrite tryGenerateVideo_attempt by done. cbv zeta.
  rewrite Hjob, Hpoll.
  destruct (videoUri operation') as [locator |]; [| reflexivity].
  simpl in Hmissing. rewrite Hmissing. reflexivity.
Qed.

Lemma missing_locator_is_final_witness :
  tryGenerateVideo MoreSamples.offline "a red kite" Samples.two_video_keys
    (S 1) 0 []
  = (Rejected (Error "Failed to generate video URI"),
     [ GenerateVideos (video_request "a red kite" (Some "keyA")) ]
     ++ [ConsoleError (Error "Failed to generate video URI")]).
Proof.
  apply (missing_locator_is_final MoreSamples.offline "a red kite"
           Samples.two_video_keys 1 0 []
           {| done := true; response := None |}
           {| done := true; response := None |}).
  - simpl. lia.
  - reflexivity.
  - reflexivity.
  - reflexivity.
Defined.

(** X9. At any position of the list: when the job is accepted but polling
    fails with a failure mentioning 429 or 403, the failure is reported and
    the call starts over with the next credential (or ends exhausted when
    there is none). *)
Theorem polling_failure_fails_over provider prompt config budget retryIdx
    tr operation e tr2 :
  retryIdx < length (video_apiKeys config) →
  generateVideos provider tr
    (video_request prompt (video_apiKeys config !! retryIdx))
  = inr operation →
  poll provider budget (video_apiKeys config !! retryIdx) operation
    (tr ++ [GenerateVideos
              (video_request prompt (video_apiKeys config !! retryIdx))])
  = (Rejected e, tr2) →
  quota_or_denied e = true →
  tryGenerateVideo provider prompt config (S budget) retryIdx tr
  = tryGenerateVideo provider prompt config budget (retryIdx + 1)
      (tr2 ++ [ConsoleError e]).
Proof.
  intros Hlt Hjob Hpoll Hquota.
  rewrite tryGenerateVideo_attempt by done. cbv zeta.
  rewrite Hjob, Hpoll, Hquota. reflexivity.
Qed.

Lemma polling_failure_fails_over_witness :
  tryGenerateVideo MoreSamples.throttled_polls "a red kite"
    {| video_apiKeys := ["keyA"] |} (S 1) 0 []
  = tryGenerateVideo MoreSamples.throttled_polls "a red kite"
      {| video_apiKeys := ["keyA"] |} 1 (0 + 1)
      ([ GenerateVideos (video_request "a red kite" (Some "keyA"));
         SetTimeout 5000;
         GetVideosOperation (Some "keyA") Samples.running ]
       ++ [ConsoleError (Foreign "ApiError: 429 Too Many Requests")])
  ∧ tryGenerateVideo MoreSamples.throttled_polls "a red kite"
      {| video_apiKeys := ["keyA"] |} (S 1) 0 []
    = (Rejected (Error "All API keys exhausted."),
       [ GenerateVideos (video_request "a red kite" (Some "keyA"));
         SetTimeout 5000;
         GetVideosOperation (Some "keyA") Samples.running;
         ConsoleError (Foreign "ApiError: 429 Too Many Requests") ]).
Proof.
  split; [| reflexivity].
  apply (polling_failure_fails_over MoreSamples.throttled_polls "a red kite"
           {| video_apiKeys := ["keyA"] |} 1 0 [] Samples.running
           (Foreign "ApiError: 429 Too Many Requests")).
  - simpl. lia.
  - reflexivity.
  - reflexivity.
  - reflexivity.
Defined.

End VideoMore.

(** * Properties of the chat component *)
Module ChatMore.
Import Js Gemini Chat ChatTurn.

#[local] Arguments String.append !_ _ / : simpl nomatch.

Lemma str_app_assoc (a b c : string) : (a +:+ b) +:+ c = a +:+ b +:+ c.
Proof. induction a as [| x a IH]; simpl; [done | by rewrite IH]. Qed.

Lemma str_length_app (a b : string) :
  String.length (a +:+ b) = String.length a + String.length b.
Proof. induction a as [| x a IH]; simpl; [done | by rewrite IH]. Qed.

Lemma chars_app (a b : string) : chars (a +:+ b) = chars a ++ chars b.
Proof. induction a as [| x a IH]; simpl; [done | by rewrite IH]. Qed.

Lemma replace_all_app c by_ (a b : string) :
  replace_all c by_ (a +:+ b) = replace_all c by_ a +:+ replace_all c by_ b.
Proof.
  induction a as [| x a IH]; simpl; [done |].
  by rewrite IH, str_app_assoc.
Qed.

Lemma escapeHtml_app (a b : string) :
  escapeHtml (a +:+ b) = escapeHtml a +:+ escapeHtml b.
Proof. unfold escapeHtml. by rewrite !replace_all_app. Qed.

(** On a single character the six replacements amount to one choice. *)
Lemma escapeHtml_one (c : ascii) :
  escapeHtml (String c EmptyString) = escaped c.
Proof.
  unfold escapeHtml, escaped. cbn [replace_all String.append].
  destruct (Ascii.eqb c "&") eqn:Hamp; [reflexivity |].
  cbn [replace_all String.append].
  destruct (Ascii.eqb c "<") eqn:Hlt; [reflexivity |].
  cbn [replace_all String.append].
  destruct (Ascii.eqb c ">") eqn:Hgt; [reflexivity |].
  cbn [replace_all String.append].
  destruct (Ascii.eqb c "034") eqn:Hquot; [reflexivity |].
  cbn [replace_all String.append].
  destruct (Ascii.eqb c "'") eqn:Hapos; [reflexivity |].
  cbn [replace_all String.append].
  destruct (Ascii.eqb c "010") eqn:Hnl; reflexivity.
Qed.

Lemma escapeHtml_cons (c : ascii) (rest : string) :
  escapeHtml (String c rest) = escaped c +:+ escapeHtml rest.
Proof.
  change (String c rest) with (String c EmptyString +:+ rest).
  by rewrite escapeHtml_app, escapeHtml_one.
Qed.

Lemma escapeHtml_escape_pass (str : string) : escapeHtml str = escape_pass str.
Proof.
  induction str as [| c rest IH]; [reflexivity |].
  by rewrite escapeHtml_cons, IH.
Qed.

Lemma special_spec (c : ascii) :
  special c
  ↔ c = "&"%char ∨ c = "<"%char ∨ c = ">"%char ∨ c = "034"%char
    ∨ c = "'"%char ∨ c = "010"%char.
Proof.
  unfold special. rewrite !elem_of_cons, elem_of_nil. tauto.
Qed.

(** What is written for one character: an entity for a special character,
    the character itself otherwise. *)
Lemma escaped_cases (c : ascii) :
  (special c ∧ escaped c ∈ entities)
  ∨ (¬ special c ∧ escaped c = String c EmptyString).
Proof.
  unfold escaped. rewrite special_spec.
  destruct (Ascii.eqb c "&") eqn:Hamp.
  { left. apply Ascii.eqb_eq in Hamp. split; [tauto |].
    unfold entities. set_solver. }
  destruct (Ascii.eqb c "<") eqn:Hlt.
  { left. apply Ascii.eqb_eq in Hlt. split; [tauto |].
    unfold entities. set_solver. }
  destruct (Ascii.eqb c ">") eqn:Hgt.
  { left. apply Ascii.eqb_eq in Hgt. split; [tauto |].
    unfold entities. set_solver. }
  destruct (Ascii.eqb c "034") eqn:Hquot.
  { left. apply Ascii.eqb_eq in Hquot. split; [tauto |].
    unfold entities. set_solver. }
  destruct (Ascii.eqb c "'") eqn:Hapos.
  { left. apply Ascii.eqb_eq in Hapos. split; [tauto |].
    unfold entities. set_solver. }
  destruct (Ascii.eqb c "010") eqn:Hnl.
  { left. apply Ascii.eqb_eq in Hnl. split; [tauto |].
    unfold entities. set_solver. }
  right. apply Ascii.eqb_neq in Hamp, Hlt, Hgt, Hquot, Hapos, Hnl.
  split; [tauto | reflexivity].
Qed.

Lemma entity_chars (piece : string) :
  piece ∈ entities →
  1 < String.length piece
  ∧ Forall (λ c, c ≠ "034"%char ∧ c ≠ "'"%char ∧ c ≠ "010"%char)
      (chars piece).
Proof.
  unfold entities. rewrite !elem_of_cons, elem_of_nil.
  intros [-> | [-> | [-> | [-> | [-> | [-> | []]]]]]]; simpl;
    (split; [lia | repeat constructor; discriminate]).
Qed.

(** X10. The six successive global replacements of [escapeHtml] amount to
    one left-to-right pass that rewrites each character on its own: text
    written by an earlier replacement is never rewritten by a later one. As
    a consequence escaping distributes over concatenation. *)
Theorem escapeHtml_single_pass (a b : string) :
  escapeHtml a = escape_pass a
  ∧ escapeHtml a = join (escaped <$> chars a)
  ∧ escapeHtml (a +:+ b) = escapeHtml a +:+ escapeHtml b.
Proof.
  split; [apply escapeHtml_escape_pass |].
  split; [| apply escapeHtml_app].
  rewrite escapeHtml_escape_pass.
  induction a as [| c rest IH]; [reflexivity |].
  simpl. by rewrite IH.
Qed.

(** X11. The output of [escapeHtml] is a sequence of pieces, one per input
    character, each either one of the six entities or a character that is
    not special; no double quote, single quote or line feed is left in
    it. *)
Theorem escapeHtml_output_is_escaped (str : string) :
  Forall (λ piece, piece ∈ entities
                   ∨ ∃ c, piece = String c EmptyString ∧ ¬ special c)
    (escaped <$> chars str)
  ∧ escapeHtml str = join (escaped <$> chars str)
  ∧ Forall (λ c, c ≠ "034"%char ∧ c ≠ "'"%char ∧ c ≠ "010"%char)
      (chars (escapeHtml str)).
Proof.
  rewrite escapeHtml_escape_pass.
  induction str as [| c rest (IHpieces & IHjoin & IHchars)].
  { repeat split; constructor. }
  split; [| split].
  - simpl. constructor; [| exact IHpieces].
    destruct (escaped_cases c) as [[_ Hentity] | [Hplain Hsame]];
      [by left | right; eauto].
  - simpl. by rewrite IHjoin.
  - simpl. rewrite chars_app. apply Forall_app. split; [| exact IHchars].
    destruct (escaped_cases c) as [[_ Hentity] | [Hplain Hsame]].
    + by apply entity_chars.
    + rewrite Hsame. simpl. constructor; [| constructor].
      rewrite special_spec in Hplain. tauto.
Qed.

Lemma escape_pass_length (str : string) :
  String.length str ≤ String.length (escape_pass str)
  ∧ (String.length (escape_pass str) = String.length str →
     Forall (λ c, ¬ special c) (chars str)).
Proof.
  induction str as [| c rest [IHle IHeq]]; [split; [done | constructor] |].
  simpl. rewrite str_length_app.
  destruct (escaped_cases c) as [[Hspecial Hentity] | [Hplain Hsame]].
  - apply entity_chars in Hentity as [Hlong _]. split; lia.
  - rewrite Hsame. simpl. split; [lia |].
    intros Hlen. constructor; [done | apply IHeq; lia].
Qed.

(** X12. [escapeHtml] never shortens a string, and it returns a string
    unchanged exactly when the string has none of the six special
    characters. *)
Theorem escapeHtml_fixes_plain_text (str : string) :
  String.length str ≤ String.length (escapeHtml str)
  ∧ (escapeHtml str = str ↔ Forall (λ c, ¬ special c) (chars str)).
Proof.
  rewrite escapeHtml_escape_pass.
  split; [apply escape_pass_length |]. split.
  - intros Hsame. apply escape_pass_length. by rewrite Hsame.
  - induction str as [| c rest IH]; [reflexivity |].
    simpl. intros Hplain. apply Forall_cons in Hplain as [Hc Hrest].
    destruct (escaped_cases c) as [[Hspecial _] | [_ Hsame]]; [done |].
    rewrite Hsame, IH by done. reflexivity.
Qed.

Lemma escapeHtml_fixes_plain_text_witness :
  escapeHtml "plain text 123" = "plain text 123".
Proof.
  apply (proj2 (proj2 (escapeHtml_fixes_plain_text "plain text 123"))).
  repeat constructor; rewrite special_spec;
    intros [H | [H | [H | [H | [H | H]]]]]; discriminate H.
Defined.

Example escapeHtml_markup :
  escapeHtml ("<a href='x'>Tom & Jerry</a>" +:+ String "010" EmptyString)
  = "&lt;a href=&#039;x&#039;&gt;Tom &amp; Jerry&lt;/a&gt;<br/>".
Proof. reflexivity. Qed.

Lemma or_default_nonempty (a : option string) (fallback : string) :
  fallback ≠ "" → or_default a fallback ≠ "".
Proof.
  intros Hfallback. destruct a as [[| c s] |]; simpl; try done.
Qed.

(** X13. Whoever is logged in and whatever their override holds, the merge
    never blanks a field the global configuration has: a non-empty global AI
    name, persona or developer name gives a non-empty effective one, and a
    non-empty global credential list gives a non-empty effective list. *)
Theorem override_cannot_blank (users : list User.t) (g : AppConfig.t)
    (currentUser : option User.t) :
  let effective :=
    config (Some {| Chat.users := users; globalConfig := Some g |})
      currentUser in
  (AppConfig.aiName g ≠ "" → aiName effective ≠ "")
  ∧ (AppConfig.aiPersona g ≠ "" → aiPersona effective ≠ "")
  ∧ (AppConfig.devName g ≠ "" → devName effective ≠ "")
  ∧ (AppConfig.apiKeys g ≠ [] → Chat.apiKeys effective ≠ []).
Proof.
  cbv zeta. unfold config. cbn [aiName aiPersona devName Chat.apiKeys].
  unfold globalConfig_of. cbn [mbind option_bind globalConfig].
  repeat split; try apply or_default_nonempty.
  intros Hkeys. destruct (PartialConfig.apiKeys _) as [[| k keys] |]; done.
Qed.

Lemma override_cannot_blank_witness :
  aiName (config (Some Samples.db)
            (Some (Samples.user_with Samples.blank_name))) ≠ ""
  ∧ Chat.apiKeys (config (Some Samples.db)
                    (Some (Samples.user_with Samples.blank_name))) ≠ [].
Proof.
  destruct (override_cannot_blank [] Samples.global
              (Some (Samples.user_with Samples.blank_name)))
    as (Hname & _ & _ & Hkeys).
  split; [apply Hname | apply Hkeys]; discriminate.
Defined.

Lemma history_app (a b : list Message) :
  history (a ++ b) = history a ++ history b.
Proof. unfold history. by rewrite filter_app, fmap_app. Qed.

(** X14. The history sent with a request leaves out the turns flagged as
    errors and keeps the others in order: appending an error turn to the
    transcript changes nothing, appending any other turn appends its text as
    the last history entry, and the history is never longer than the
    transcript. *)
Theorem error_turns_stay_out_of_history (messages : list Message)
    (role text : string) :
  history (messages
           ++ [ {| ChatTurn.role := role; ChatTurn.text := text;
                   isError := Some true |} ])
  = history messages
  ∧ history (messages
             ++ [ {| ChatTurn.role := role; ChatTurn.text := text;
                     isError := Some false |} ])
    = history messages
      ++ [ {| Gemini.role := role; parts := [TextPart text] |} ]
  ∧ history (messages
             ++ [ {| ChatTurn.role := role; ChatTurn.text := text;
                     isError := None |} ])
    = history messages
      ++ [ {| Gemini.role := role; parts := [TextPart text] |} ]
  ∧ length (history messages) ≤ length messages.
Proof.
  rewrite !history_app. repeat split.
  - apply app_nil_r.
  - unfold history. rewrite length_fmap. apply length_filter.
Qed.

Example history_of_transcript :
  history MoreSamples.transcript
  = [ {| Gemini.role := "user"; parts := [TextPart "hello"] |};
      {| Gemini.role := "model"; parts := [TextPart "hi"] |} ].
Proof. reflexivity. Qed.

Lemma content_copy (l : list Content) :
  (λ msg, {| Gemini.role := Gemini.role msg; parts := parts msg |}) <$> l = l.
Proof.
  induction l as [| [r p] l IH]; [done |]. by rewrite fmap_cons, IH.
Qed.

(** X15. Every request sent for one chat turn carries the same payload: the
    model ["gemini-2.5-flash"], the system instruction, the four safety
    settings, and as contents the history without error turns followed by
    the user's turn; only the credential differs from one request to the
    next, following the effective credential list in order. *)
Theorem chat_requests_share_payload provider (config : EffectiveConfig)
    (systemInstruction : string) (messages : list Message)
    (currentInput : string) (imageAttachments : list ImageAttachment)
    (tr : trace) :
  ∃ k, k ≤ length (Chat.apiKeys config)
       ∧ (send provider config systemInstruction messages currentInput
            imageAttachments tr).2
         = tr
           ++ ((λ key,
                  GenerateContent
                    {| gc_apiKey := Some key;
                       gc_model := "gemini-2.5-flash";
                       gc_contents :=
                         history messages
                         ++ [ {| Gemini.role := "user";
                                 parts := currentParts currentInput
                                            imageAttachments |} ];
                       gc_systemInstruction := systemInstruction;
                       gc_safetySettings := safetySettings |})
                 <$> take k (Chat.apiKeys config)).
Proof.
  unfold send, sendMessageToGemini. cbn [Gemini.apiKeys].
  destruct (GatewayMore.tryGenerate_requests provider currentInput
              imageAttachments (history messages)
              {| Gemini.apiKeys := Chat.apiKeys config;
                 Gemini.systemInstruction := systemInstruction |}
              (S (length (Chat.apiKeys config))) 0 tr ltac:(lia))
    as (k & Hk & Hrun).
  change (attempts currentInput imageAttachments (history messages) _ 0)
    with (@nil event) in Hrun.
  rewrite app_nil_r in Hrun. cbn [Gemini.apiKeys] in Hk, Hrun.
  exists k. split; [lia |]. rewrite Hrun. unfold attempts, request.
  unfold formattedContents. rewrite content_copy. reflexivity.
Qed.

End ChatMore.

(** * Further properties of the session store *)
Module SessionMore.
Import Js Async Async.Notations Session Admin SessionFacts.

(** Two different rows that pass the filters make the lookup answer
    [null]. *)
Lemma matching_ambiguous (P : Row.t → Prop) `{∀ r, Decision (P r)}
    (rows : list Row.t) (r1 r2 : Row.t) :
  r1 ∈ rows → r2 ∈ rows → r1 ≠ r2 → P r1 → P r2 → matching P rows = None.
Proof.
  intros Hin1 Hin2 Hne HP1 HP2.
  destruct (matching P rows) as [r |] eqn:Hmatch; [| done].
  apply single_Some in Hmatch.
  assert (r1 ∈ filter P rows) as H1 by (apply list_elem_of_filter; done).
  assert (r2 ∈ filter P rows) as H2 by (apply list_elem_of_filter; done).
  rewrite Hmatch in H1, H2.
  apply list_elem_of_singleton in H1, H2. congruence.
Qed.

Lemma loginClient_run Date_getTime (now : Z) (key : string) (w : World) :
  loginClient Date_getTime now key w
  = match matching (λ r, Row.access_key r = key ∧ Row.role r = "user")
            (users w) with
    | None =>
        (Resolved {| success := false;
                     message := Some "Invalid Access Key." |}, w)
    | Some user =>
        if ge_200000 (diffHours Date_getTime now (Row.created_at user))
        then (Resolved
                {| success := false;
                   message := Some "Access Key expired (200.000 hours)." |},
              w)
        else (Resolved {| success := true; message := None |},
              {| currentUser := Some (mapped user);
                 localStorage := <[session_slot := key]> (localStorage w);
                 users := users w;
                 app_config := app_config w |})
    end.
Proof.
  unfold loginClient, select_single, bind, get, ret.
  destruct (matching _ _) as [user |]; [| reflexivity].
  destruct (ge_200000 _); reflexivity.
Qed.

Lemma loginAdmin_run (username key : string) (w : World) :
  loginAdmin username key w
  = match matching (λ r, Row.username r = username ∧ Row.access_key r = key
                         ∧ Row.role r = "admin") (users w) with
    | None =>
        (Resolved {| success := false;
                     message := Some "Invalid Admin Credentials." |}, w)
    | Some user =>
        (Resolved {| success := true; message := None |},
         {| currentUser := Some (mapped user);
            localStorage := <[session_slot := key]> (localStorage w);
            users := users w;
            app_config := app_config w |})
    end.
Proof.
  unfold loginAdmin, select_single, bind, get, ret.
  destruct (matching _ _) as [user |]; reflexivity.
Qed.

Lemma restoreSession_run Date_getTime (now : Z) (w : World) :
  restoreSession Date_getTime now w
  = match localStorage w !! session_slot with
    | None => (Resolved tt, w)
    | Some key =>
        if truthy key
        then
          match matching (λ r, Row.access_key r = key) (users w) with
          | None => (Resolved tt, set_localStorage (delete session_slot) w)
          | Some user =>
              if ge_200000 (diffHours Date_getTime now (Row.created_at user))
                 && negb (bool_decide (Row.role user = "admin"))
              then (Resolved tt, set_localStorage (delete session_slot) w)
              else (Resolved tt, set_currentUser (Some (mapped user)) w)
          end
        else (Resolved tt, w)
    end.
Proof.
  unfold restoreSession, getItem, select_single, bind, get, ret.
  destruct (localStorage w !! session_slot) as [key |]; [| reflexivity].
  cbn [truthy_opt]. destruct (truthy key); [| reflexivity].
  cbn [negb default from_option id].
  destruct (matching _ _) as [user |]; [| reflexivity].
  destruct (_ && _); reflexivity.
Qed.

(** X16. [loginClient] always resolves, and a refused login changes nothing
    (a user already logged in stays logged in, nothing is persisted). A
    successful login is always for a row of the table that has the given key
    and the role ["user"]: that row's user becomes the current user and the
    key is persisted; the remote tables are never touched. *)
Theorem loginClient_outcome Date_getTime (now : Z) (key : string)
    (w : World) :
  ∃ result w',
    loginClient Date_getTime now key w = (Resolved result, w')
    ∧ users w' = users w
    ∧ app_config w' = app_config w
    ∧ ((success result = false ∧ w' = w)
       ∨ (success result = true
          ∧ ∃ user, user ∈ users w
                    ∧ Row.access_key user = key
                    ∧ Row.role user = "user"
                    ∧ currentUser w' = Some (mapped user)
                    ∧ localStorage w'
                      = <[session_slot := key]> (localStorage w))).
Proof.
  rewrite loginClient_run.
  destruct (matching _ _) as [user |] eqn:Hmatch.
  - destruct (ge_200000 _).
    + eexists _, _. split; [reflexivity |]. repeat split. by left.
    + apply matching_Some in Hmatch as (Hin & Hkey & Hrole).
      eexists _, _. split; [reflexivity |]. repeat split.
      right. split; [done |]. exists user. done.
  - eexists _, _. split; [reflexivity |]. repeat split. by left.
Qed.

(** X17. [loginAdmin] always resolves, and a refused login changes nothing.
    A successful login is always for a row of the table with the given
    username, the given key and the role ["admin"]. *)
Theorem loginAdmin_outcome (username key : string) (w : World) :
  ∃ result w',
    loginAdmin username key w = (Resolved result, w')
    ∧ users w' = users w
    ∧ app_config w' = app_config w
    ∧ ((success result = false ∧ w' = w)
       ∨ (success result = true
          ∧ ∃ user, user ∈ users w
                    ∧ Row.username user = username
                    ∧ Row.access_key user = key
                    ∧ Row.role user = "admin"
                    ∧ currentUser w' = Some (mapped user)
                    ∧ localStorage w'
                      = <[session_slot := key]> (localStorage w))).
Proof.
  rewrite loginAdmin_run.
  destruct (matching _ _) as [user |] eqn:Hmatch.
  - apply matching_Some in Hmatch as (Hin & Hname & Hkey & Hrole).
    eexists _, _. split; [reflexivity |]. repeat split.
    right. split; [done |]. exists user. done.
  - eexists _, _. split; [reflexivity |]. repeat split. by left.
Qed.

(** X18. The link between the current user and the persisted key is kept:
    if the current user, when there is one, is the owner of the persisted
    key, this still holds after [loginClient], [loginAdmin] and [logout],
    and after [restoreSession] run with no current user (as it is when the
    provider mounts). *)
Theorem session_stays_consistent Date_getTime (now : Z)
    (username key : string) (w : World) :
  session_consistent w →
  session_consistent (loginClient Date_getTime now key w).2
  ∧ session_consistent (loginAdmin username key w).2
  ∧ session_consistent (logout w).2
  ∧ (currentUser w = None →
     session_consistent (restoreSession Date_getTime now w).2).
Proof.
  intros Hw. split; [| split; [| split]].
  - rewrite loginClient_run.
    destruct (matching _ _) as [user |] eqn:Hmatch; [| done].
    destruct (ge_200000 _); [done |].
    apply matching_Some in Hmatch as (_ & Hkey & _).
    intros u [= <-]. simpl. by rewrite lookup_insert_eq, Hkey.
  - rewrite loginAdmin_run.
    destruct (matching _ _) as [user |] eqn:Hmatch; [| done].
    apply matching_Some in Hmatch as (_ & _ & Hkey & _).
    intros u [= <-]. simpl. by rewrite lookup_insert_eq, Hkey.
  - intros u Hu. discriminate Hu.
  - intros Hnone. rewrite restoreSession_run.
    destruct (localStorage w !! session_slot) as [saved |] eqn:Hslot;
      [| done].
    destruct (truthy saved); [| done].
    destruct (matching _ _) as [user |] eqn:Hmatch.
    + destruct (_ && _).
      * intros u Hu. simpl in Hu. congruence.
      * apply matching_Some in Hmatch as (_ & Hkey).
        intros u [= <-]. simpl. by rewrite Hslot, Hkey.
    + intros u Hu. simpl in Hu. congruence.
Qed.

Lemma session_stays_consistent_witness :
  session_consistent
    (loginClient Samples.Date_getTime 1000000000000 "VALID-KEY-123"
       Samples.fresh).2
  ∧ session_consistent
      (restoreSession Samples.Date_getTime 1000000000000
         (Samples.returning "ADMIN-KEY")).2.
Proof.
  split.
  - refine (proj1 (session_stays_consistent Samples.Date_getTime
                     1000000000000 "" "VALID-KEY-123" Samples.fresh _)).
    intros u Hu. discriminate Hu.
  - refine (proj2 (proj2 (proj2
             (session_stays_consistent Samples.Date_getTime 1000000000000
                "" "" (Samples.returning "ADMIN-KEY") _))) eq_refl).
    intros u Hu. discriminate Hu.
Defined.

Lemma truthy_true (s : string) : s ≠ "" → truthy s = true.
Proof. destruct s; simpl; congruence. Qed.

Lemma not_expired Date_getTime (now created : Z) (created_at : string) :
  Date_getTime created_at = Some created →
  (now - created < expiry_ms)%Z →
  ge_200000 (diffHours Date_getTime now created_at) = false.
Proof.
  intros Hparse Hfresh. apply not_true_iff_false.
  rewrite (ge_200000_spec _ _ _ _ Hparse). lia.
Qed.

(** X19. A client login survives a page reload: after a successful
    [loginClient] with a non-empty key that identifies the row among all
    rows, reloading and running [restoreSession] before the 200,000 hours
    are over gives back exactly the state the login left (same current user,
    same persisted key). *)
Theorem client_login_survives_reload Date_getTime (now later : Z)
    (key : string) (w : World) (user : Row.t) (created : Z) :
  key ≠ "" →
  matching (λ r, Row.access_key r = key ∧ Row.role r = "user") (users w)
  = Some user →
  matching (λ r, Row.access_key r = key) (users w) = Some user →
  Date_getTime (Row.created_at user) = Some created →
  (now - created < expiry_ms)%Z →
  (later - created < expiry_ms)%Z →
  ∃ w1,
    loginClient Date_getTime now key w
    = (Resolved {| success := true; message := None |}, w1)
    ∧ currentUser (reload w1) = None
    ∧ restoreSession Date_getTime later (reload w1) = (Resolved tt, w1).
Proof.
  intros Hkey Hlogin Hunique Hparse Hnow Hlater.
  rewrite loginClient_run, Hlogin, (not_expired _ _ _ _ Hparse Hnow).
  eexists. split; [reflexivity |]. split; [reflexivity |].
  rewrite restoreSession_run. cbn.
  rewrite lookup_insert_eq, (truthy_true key Hkey), Hunique.
  rewrite (not_expired _ _ _ _ Hparse Hlater). reflexivity.
Qed.

Lemma client_login_survives_reload_witness :
  ∃ w1,
    loginClient Samples.Date_getTime (1000000000000 + 5 * 3600000)
      "VALID-KEY-123" Samples.fresh
    = (Resolved {| success := true; message := None |}, w1)
    ∧ currentUser (reload w1) = None
    ∧ restoreSession Samples.Date_getTime (1000000000000 + 6 * 3600000)
        (reload w1)
      = (Resolved tt, w1).
Proof.
  apply (client_login_survives_reload Samples.Date_getTime
           (1000000000000 + 5 * 3600000) (1000000000000 + 6 * 3600000)
           "VALID-KEY-123" Samples.fresh Samples.alice 1000000000000).
  - discriminate.
  - reflexivity.
  - reflexivity.
  - reflexivity.
  - vm_compute. reflexivity.
  - vm_compute. reflexivity.
Defined.

(** X20. An administrator login survives a page reload at any later time:
    after a successful [loginAdmin] with a non-empty key that identifies the
    row among all rows, reloading and running [restoreSession] gives back
    exactly the state the login left. *)
Theorem admin_login_survives_reload Date_getTime (later : Z)
    (username key : string) (w : World) (user : Row.t) :
  key ≠ "" →
  matching (λ r, Row.username r = username ∧ Row.access_key r = key
                 ∧ Row.role r = "admin") (users w)
  = Some user →
  matching (λ r, Row.access_key r = key) (users w) = Some user →
  ∃ w1,
    loginAdmin username key w
    = (Resolved {| success := true; message := None |}, w1)
    ∧ currentUser (reload w1) = None
    ∧ restoreSession Date_getTime later (reload w1) = (Resolved tt, w1).
Proof.
  intros Hkey Hlogin Hunique.
  rewrite loginAdmin_run, Hlogin.
  eexists. split; [reflexivity |]. split; [reflexivity |].
  rewrite restoreSession_run. cbn.
  rewrite lookup_insert_eq, (truthy_true key Hkey), Hunique.
  apply matching_Some in Hlogin as (_ & _ & _ & Hrole).
  rewrite Hrole, andb_false_r. reflexivity.
Qed.

Lemma admin_login_survives_reload_witness :
  ∃ w1,
    loginAdmin "root" "ADMIN-KEY" Samples.fresh
    = (Resolved {| success := true; message := None |}, w1)
    ∧ currentUser (reload w1) = None
    ∧ restoreSession Samples.Date_getTime (1000000000000 + 3 * expiry_ms)
        (reload w1)
      = (Resolved tt, w1).
Proof.
  apply (admin_login_survives_reload Samples.Date_getTime
           (1000000000000 + 3 * expiry_ms) "root" "ADMIN-KEY"
           Samples.fresh Samples.root).
  - discriminate.
  - reflexivity.
  - reflexivity.
Defined.

(** X21. [logout] always resolves, clears the current user and removes the
    persisted key, whatever the state; logging out again changes nothing,
    and a [restoreSession] that follows, at any time, changes nothing
    either: no session comes back. *)
Theorem logout_ends_the_session Date_getTime (now : Z) (w : World) :
  ∃ w1,
    logout w = (Resolved tt, w1)
    ∧ currentUser w1 = None
    ∧ localStorage w1 = delete session_slot (localStorage w)
    ∧ users w1 = users w
    ∧ app_config w1 = app_config w
    ∧ logout w1 = (Resolved tt, w1)
    ∧ restoreSession Date_getTime now w1 = (Resolved tt, w1).
Proof.
  eexists. split; [reflexivity |]. do 4 (split; [reflexivity |]). split.
  - unfold logout, setCurrentUser, removeItem, bind, modify,
      set_currentUser, set_localStorage. cbn.
    by rewrite delete_delete_eq.
  - rewrite restoreSession_run. cbn. by rewrite lookup_delete_eq.
Qed.

(** X22. An access key shared by two different rows locks both out:
    [restoreSession] with that key persisted removes the key and restores
    nobody, and when both rows have the role ["user"], [loginClient] refuses
    the key as invalid. *)
Theorem shared_key_locks_out Date_getTime (now : Z) (key : string)
    (w : World) (r1 r2 : Row.t) :
  r1 ∈ users w → r2 ∈ users w → r1 ≠ r2 →
  Row.access_key r1 = key → Row.access_key r2 = key →
  (Row.role r1 = "user" → Row.role r2 = "user" →
   loginClient Date_getTime now key w
   = (Resolved {| success := false; message := Some "Invalid Access Key." |},
      w))
  ∧ (localStorage w !! session_slot = Some key → key ≠ "" →
     restoreSession Date_getTime now w
     = (Resolved tt, set_localStorage (delete session_slot) w)).
Proof.
  intros Hin1 Hin2 Hne Hkey1 Hkey2. split.
  - intros Hrole1 Hrole2. rewrite loginClient_run.
    by rewrite (matching_ambiguous _ _ r1 r2).
  - intros Hslot Hkey. rewrite restoreSession_run, Hslot.
    rewrite (truthy_true key Hkey).
    by rewrite (matching_ambiguous _ _ r1 r2).
Qed.

Lemma shared_key_locks_out_witness :
  loginClient Samples.Date_getTime 1000000000000 "VALID-KEY-123"
    MoreSamples.crowded
  = (Resolved {| success := false; message := Some "Invalid Access Key." |},
     MoreSamples.crowded).
Proof.
  apply (proj1 (shared_key_locks_out Samples.Date_getTime 1000000000000
                  "VALID-KEY-123" MoreSamples.crowded
                  Samples.alice MoreSamples.twin
                  ltac:(unfold MoreSamples.crowded; simpl; set_solver)
                  ltac:(unfold MoreSamples.crowded; simpl; set_solver)
                  ltac:(discriminate) eq_refl eq_refl));
    reflexivity.
Defined.

(** X23. For a persisted non-empty key whose lookup returns a row that is
    not an administrator's: when at least 200,000 hours have passed since
    the row's creation [restoreSession] removes the persisted key and
    restores nobody; when less has passed it makes the row's user the
    current user and writes nothing to local storage. *)
Theorem restoreSession_expiry Date_getTime (now : Z) (w : World)
    (key : string) (user : Row.t) (created : Z) :
  localStorage w !! session_slot = Some key →
  key ≠ "" →
  matching (λ r, Row.access_key r = key) (users w) = Some user →
  Row.role user ≠ "admin" →
  Date_getTime (Row.created_at user) = Some created →
  ((expiry_ms ≤ now - created)%Z →
   restoreSession Date_getTime now w
   = (Resolved tt, set_localStorage (delete session_slot) w))
  ∧ ((now - created < expiry_ms)%Z →
     restoreSession Date_getTime now w
     = (Resolved tt, set_currentUser (Some (mapped user)) w)).
Proof.
  intros Hslot Hkey Hmatch Hrole Hparse.
  rewrite restoreSession_run, Hslot, (truthy_true key Hkey), Hmatch.
  rewrite bool_decide_eq_false_2 by done. cbn [negb]. rewrite andb_true_r.
  split; intros Helapsed.
  - apply (ge_200000_spec _ _ _ _ Hparse) in Helapsed. by rewrite Helapsed.
  - by rewrite (not_expired _ _ _ _ Hparse Helapsed).
Qed.

Lemma restoreSession_expiry_witness :
  restoreSession Samples.Date_getTime (1000000000000 + expiry_ms)
    (Samples.returning "VALID-KEY-123")
  = (Resolved tt,
     set_localStorage (delete session_slot)
       (Samples.returning "VALID-KEY-123"))
  ∧ restoreSession Samples.Date_getTime (1000000000000 + expiry_ms - 1)
      (Samples.returning "VALID-KEY-123")
    = (Resolved tt,
       set_currentUser (Some (mapped Samples.alice))
         (Samples.returning "VALID-KEY-123")).
Proof.
  split.
  - apply (proj1 (restoreSession_expiry Samples.Date_getTime
                    (1000000000000 + expiry_ms)
                    (Samples.returning "VALID-KEY-123") "VALID-KEY-123"
                    Samples.alice 1000000000000 eq_refl
                    ltac:(discriminate) eq_refl ltac:(discriminate)
                    eq_refl)).
    vm_compute. discriminate.
  - apply (proj2 (restoreSession_expiry Samples.Date_getTime
                    (1000000000000 + expiry_ms - 1)
                    (Samples.returning "VALID-KEY-123") "VALID-KEY-123"
                    Samples.alice 1000000000000 eq_refl
                    ltac:(discriminate) eq_refl ltac:(discriminate)
                    eq_refl)).
    vm_compute. reflexivity.
Defined.

(** X24. A row whose creation time cannot be read as a date never expires:
    the comparison with 200,000 hours is false for it at every time, so
    [loginClient] succeeds and [restoreSession] restores the user. *)
Theorem unreadable_creation_time_never_expires Date_getTime (now : Z)
    (key : string) (w : World) (user : Row.t) :
  Date_getTime (Row.created_at user) = None →
  (matching (λ r, Row.access_key r = key ∧ Row.role r = "user") (users w)
   = Some user →
   loginClient Date_getTime now key w
   = (Resolved {| success := true; message := None |},
      {| currentUser := Some (mapped user);
         localStorage := <[session_slot := key]> (localStorage w);
         users := users w;
         app_config := app_config w |}))
  ∧ (localStorage w !! session_slot = Some key → key ≠ "" →
     matching (λ r, Row.access_key r = key) (users w) = Some user →
     restoreSession Date_getTime now w
     = (Resolved tt, set_currentUser (Some (mapped user)) w)).
Proof.
  intros Hparse. split.
  - intros Hmatch. rewrite loginClient_run, Hmatch.
    unfold diffHours. rewrite Hparse. reflexivity.
  - intros Hslot Hkey Hmatch.
    rewrite restoreSession_run, Hslot, (truthy_true key Hkey), Hmatch.
    unfold diffHours. rewrite Hparse. reflexivity.
Qed.

Lemma unreadable_creation_time_never_expires_witness :
  loginClient (λ _, None) (1000000000000 + 2 * expiry_ms) "VALID-KEY-123"
    Samples.fresh
  = (Resolved {| success := true; message := None |},
     {| currentUser := Some (mapped Samples.alice);
        localStorage := <[session_slot := "VALID-KEY-123"]> ∅;
        users := users Samples.fresh;
        app_config := app_config Samples.fresh |}).
Proof.
  apply (proj1 (unreadable_creation_time_never_expires (λ _, None)
                  (1000000000000 + 2 * expiry_ms) "VALID-KEY-123"
                  Samples.fresh Samples.alice eq_refl)).
  reflexivity.
Defined.

(** X25. With nothing persisted, or with the empty string persisted,
    [restoreSession] changes nothing at all: it looks nobody up, sets no
    current user and leaves local storage as it is. *)
Theorem restoreSession_without_key Date_getTime (now : Z) (w : World) :
  localStorage w !! session_slot = None
  ∨ localStorage w !! session_slot = Some "" →
  restoreSession Date_getTime now w = (Resolved tt, w).
Proof.
  intros [Hslot | Hslot]; rewrite restoreSession_run, Hslot; reflexivity.
Qed.

Lemma restoreSession_without_key_witness :
  restoreSession Samples.Date_getTime 1000000000000 (Samples.returning "")
  = (Resolved tt, Samples.returning "").
Proof.
  apply (restoreSession_without_key Samples.Date_getTime 1000000000000
           (Samples.returning "")).
  right. reflexivity.
Defined.

Lemma deleteUser_rows (id : string) (w : World) (r : Row.t) :
  r ∈ users (deleteUser id w).2 ↔ r ∈ users w ∧ Row.id r ≠ id.
Proof.
  unfold deleteUser, modify. cbn. rewrite list_elem_of_filter. tauto.
Qed.

(** X26. [deleteUser] removes exactly the rows with the given id and leaves
    the browser state alone (a user who is logged in stays so until the next
    reload). Afterwards, when the deleted rows were the only ones with some
    access key, that key is refused by [loginClient] and by [loginAdmin], and
    a [restoreSession] with that key persisted removes it and restores
    nobody. *)
Theorem deleted_user_is_locked_out Date_getTime (now : Z)
    (id key : string) (w : World) :
  (∀ r, r ∈ users w → Row.access_key r = key → Row.id r = id) →
  ∃ w1,
    deleteUser id w = (Resolved tt, w1)
    ∧ (∀ r, r ∈ users w1 ↔ r ∈ users w ∧ Row.id r ≠ id)
    ∧ currentUser w1 = currentUser w
    ∧ localStorage w1 = localStorage w
    ∧ app_config w1 = app_config w
    ∧ loginClient Date_getTime now key w1
      = (Resolved {| success := false;
                     message := Some "Invalid Access Key." |}, w1)
    ∧ (∀ username,
         loginAdmin username key w1
         = (Resolved {| success := false;
                        message := Some "Invalid Admin Credentials." |}, w1))
    ∧ (localStorage w !! session_slot = Some key → key ≠ "" →
       restoreSession Date_getTime now w1
       = (Resolved tt, set_localStorage (delete session_slot) w1)).
Proof.
  intros Honly. eexists. split; [reflexivity |].
  split; [apply deleteUser_rows |]. do 3 (split; [reflexivity |]).
  assert (Hgone : ∀ r, r ∈ users (deleteUser id w).2 →
                       Row.access_key r ≠ key).
  { intros r [Hin Hid]%deleteUser_rows Hkey. by apply Hid, Honly. }
  split; [| split].
  - rewrite loginClient_run, matching_absent; [done |].
    intros r Hr [Hkey _]. by apply (Hgone r).
  - intros username. rewrite loginAdmin_run, matching_absent; [done |].
    intros r Hr (_ & Hkey & _). by apply (Hgone r).
  - intros Hslot Hkey. rewrite restoreSession_run.
    unfold set_users at 1. cbn [localStorage].
    rewrite Hslot, (truthy_true key Hkey), matching_absent; [done |].
    intros r Hr Hkey'. by apply (Hgone r).
Qed.

Lemma deleted_user_is_locked_out_witness :
  ∃ w1,
    deleteUser "u1" (Samples.returning "VALID-KEY-123") = (Resolved tt, w1)
    ∧ loginClient Samples.Date_getTime 1000000000000 "VALID-KEY-123" w1
      = (Resolved {| success := false;
                     message := Some "Invalid Access Key." |}, w1)
    ∧ restoreSession Samples.Date_getTime 1000000000000 w1
      = (Resolved tt, set_localStorage (delete session_slot) w1).
Proof.
  destruct (deleted_user_is_locked_out Samples.Date_getTime 1000000000000
              "u1" "VALID-KEY-123" (Samples.returning "VALID-KEY-123"))
    as (w1 & Hrun & _ & _ & _ & _ & Hlogin & _ & Hrestore).
  - intros r Hr Hkey. simpl in Hr.
    apply elem_of_cons in Hr as [-> | Hr]; [discriminate Hkey |].
    apply elem_of_cons in Hr as [-> | Hr]; [reflexivity |].
    by apply elem_of_nil in Hr.
  - exists w1. split; [exact Hrun |]. split; [exact Hlogin |].
    apply Hrestore; [reflexivity | discriminate].
Defined.

(** The columns of the update object, read off the supplied fields. *)
Lemma dbUpdate_lookup (newConfig : PartialConfig.t) :
  dbUpdate newConfig !! "ai_name"
  = (v ← PartialConfig.aiName newConfig;
     if truthy v then Some (JString v) else None)
  ∧ dbUpdate newConfig !! "dev_name"
    = (v ← PartialConfig.devName newConfig;
       if truthy v then Some (JString v) else None)
  ∧ dbUpdate newConfig !! "avatar_url"
    = (v ← PartialConfig.avatarUrl newConfig;
       if truthy v then Some (JString v) else None)
  ∧ dbUpdate newConfig !! "api_keys"
    = JStrings <$> PartialConfig.apiKeys newConfig
  ∧ ∀ column, column ∉ ["ai_name"; "dev_name"; "avatar_url"; "api_keys"] →
              dbUpdate newConfig !! column = None.
Proof.
  split; [| split; [| split; [| split]]]; try intros column Hcolumn;
    unfold dbUpdate; destruct newConfig as [name persona dev keys avatar];
    cbn [PartialConfig.aiName PartialConfig.devName PartialConfig.avatarUrl
         PartialConfig.apiKeys];
    destruct name as [[| ? ?] |], dev as [[| ? ?] |], avatar as [[| ? ?] |],
      keys as [keys |];
    cbn [truthy mbind option_bind fmap option_fmap option_map];
    try (rewrite !not_elem_of_cons in Hcolumn;
         destruct Hcolumn as (? & ? & ? & ? & _));
    by simplify_map_eq.
Qed.

Lemma update_row_first (values row : gmap string Json) :
  row !! "id" = Some (JNumber 1) → update_row values row = values ∪ row.
Proof. intros Hid. unfold update_row. by rewrite Hid. Qed.

Lemma update_row_other (values row : gmap string Json) :
  row !! "id" ≠ Some (JNumber 1) → update_row values row = row.
Proof.
  intros Hid. unfold update_row.
  destruct (row !! "id") as [[[| [p | p |] | p] | |] |]; congruence.
Qed.

Lemma row_id_cases (row : gmap string Json) :
  row !! "id" = Some (JNumber 1) ∨ row !! "id" ≠ Some (JNumber 1).
Proof.
  destruct (row !! "id") as [[[| [p | p |] | p] | |] |];
    (by left) || (right; congruence).
Qed.

Lemma update_app_config_row (values : gmap string Json) (w : World)
    (i : nat) (row : gmap string Json) :
  app_config w !! i = Some row →
  app_config (update_app_config values w).2 !! i
  = Some (update_row values row).
Proof.
  intros Hrow. unfold update_app_config, modify. cbn.
  by rewrite list_lookup_fmap, Hrow.
Qed.

(** X27. What [updateGlobalConfig] stores in the configuration row with id
    1: a supplied AI name, developer name or avatar reference is written
    when it is non-empty and ignored when it is absent or empty (so none of
    the three can be blanked); a supplied credential list is always
    written, the empty list included; an absent one is ignored; every other
    column keeps its value. *)
Theorem updateGlobalConfig_writes (newConfig : PartialConfig.t) (w : World)
    (i : nat) (row : gmap string Json) :
  app_config w !! i = Some row →
  row !! "id" = Some (JNumber 1) →
  ∃ row',
    app_config (updateGlobalConfig newConfig w).2 !! i = Some row'
    ∧ (∀ v, PartialConfig.aiName newConfig = Some v → v ≠ "" →
            row' !! "ai_name" = Some (JString v))
    ∧ (PartialConfig.aiName newConfig = None
       ∨ PartialConfig.aiName newConfig = Some "" →
       row' !! "ai_name" = row !! "ai_name")
    ∧ (∀ v, PartialConfig.devName newConfig = Some v → v ≠ "" →
            row' !! "dev_name" = Some (JString v))
    ∧ (PartialConfig.devName newConfig = None
       ∨ PartialConfig.devName newConfig = Some "" →
       row' !! "dev_name" = row !! "dev_name")
    ∧ (∀ v, PartialConfig.avatarUrl newConfig = Some v → v ≠ "" →
            row' !! "avatar_url" = Some (JString v))
    ∧ (PartialConfig.avatarUrl newConfig = None
       ∨ PartialConfig.avatarUrl newConfig = Some "" →
       row' !! "avatar_url" = row !! "avatar_url")
    ∧ (∀ keys, PartialConfig.apiKeys newConfig = Some keys →
               row' !! "api_keys" = Some (JStrings keys))
    ∧ (PartialConfig.apiKeys newConfig = None →
       row' !! "api_keys" = row !! "api_keys")
    ∧ (∀ column,
         column ∉ ["ai_name"; "dev_name"; "avatar_url"; "api_keys"] →
         row' !! column = row !! column).
Proof.
  intros Hrow Hid. exists (dbUpdate newConfig ∪ row). split.
  { unfold updateGlobalConfig, modify. cbn.
    by rewrite list_lookup_fmap, Hrow, <- (update_row_first _ _ Hid). }
  destruct (dbUpdate_lookup newConfig)
    as (Hname & Hdev & Havatar & Hkeys & Hother).
  rewrite !lookup_union, Hname, Hdev, Havatar, Hkeys.
  repeat split.
  - intros v -> Hv. cbn. rewrite (truthy_true v Hv).
    by destruct (row !! "ai_name").
  - intros [-> | ->]; cbn; by destruct (row !! "ai_name").
  - intros v -> Hv. cbn. rewrite (truthy_true v Hv).
    by destruct (row !! "dev_name").
  - intros [-> | ->]; cbn; by destruct (row !! "dev_name").
  - intros v -> Hv. cbn. rewrite (truthy_true v Hv).
    by destruct (row !! "avatar_url").
  - intros [-> | ->]; cbn; by destruct (row !! "avatar_url").
  - intros keys ->. cbn. by destruct (row !! "api_keys").
  - intros ->. cbn. by destruct (row !! "api_keys").
  - intros column Hcolumn. rewrite lookup_union, (Hother column Hcolumn).
    by destruct (row !! column).
Qed.

Lemma updateGlobalConfig_writes_witness :
  ∃ row',
    app_config
      (updateGlobalConfig
         {| PartialConfig.aiName := Some "";
            PartialConfig.aiPersona := Some "Be brief.";
            PartialConfig.devName := Some "Dev";
            PartialConfig.apiKeys := Some [];
            PartialConfig.avatarUrl := None |}
         Samples.fresh).2 !! 0
    = Some row'
    ∧ row' !! "ai_name" = Some (JString "CentralGPT")
    ∧ row' !! "dev_name" = Some (JString "Dev")
    ∧ row' !! "api_keys" = Some (JStrings [])
    ∧ row' !! "ai_persona" = Some (JString "You are {{AI_NAME}}.").
Proof.
  destruct (updateGlobalConfig_writes
              {| PartialConfig.aiName := Some "";
                 PartialConfig.aiPersona := Some "Be brief.";
                 PartialConfig.devName := Some "Dev";
                 PartialConfig.apiKeys := Some [];
                 PartialConfig.avatarUrl := None |}
              Samples.fresh 0 Samples.config_row eq_refl eq_refl)
    as (row' & Hrow' & _ & Hname & Hdev & _ & _ & _ & Hkeys & _ & Hother).
  exists row'. split; [exact Hrow' |]. split; [| split; [| split]].
  - rewrite Hname; [reflexivity | by right].
  - apply Hdev; [reflexivity | discriminate].
  - by apply Hkeys.
  - rewrite Hother; [reflexivity |].
    rewrite !not_elem_of_cons. repeat split; try discriminate.
    apply not_elem_of_nil.
Defined.

Lemma dbUpdate_keeps_id (newConfig : PartialConfig.t) :
  dbUpdate newConfig !! "id" = None.
Proof.
  apply dbUpdate_lookup. rewrite !not_elem_of_cons.
  repeat split; try discriminate. apply not_elem_of_nil.
Qed.

Lemma update_row_twice (values row : gmap string Json) :
  values !! "id" = None →
  update_row values (update_row values row) = update_row values row.
Proof.
  intros Hvalues.
  destruct (row_id_cases row) as [Hid | Hid].
  - rewrite (update_row_first _ row Hid), update_row_first.
    + by rewrite (assoc_L (∪)), (idemp_L (∪)).
    + by rewrite lookup_union_r.
  - by rewrite !(update_row_other _ row Hid).
Qed.

(** X28. [updateGlobalConfig] leaves every configuration row whose id is not
    1 as it was, and likewise the users table and the browser state; run a
    second time with the same argument it changes nothing more; and run with
    no field set it changes nothing at all. *)
Theorem updateGlobalConfig_frame (newConfig : PartialConfig.t) (w : World) :
  ∃ w1,
    updateGlobalConfig newConfig w = (Resolved tt, w1)
    ∧ currentUser w1 = currentUser w
    ∧ localStorage w1 = localStorage w
    ∧ users w1 = users w
    ∧ length (app_config w1) = length (app_config w)
    ∧ Forall2 (λ row row1, row !! "id" ≠ Some (JNumber 1) → row1 = row)
        (app_config w) (app_config w1)
    ∧ updateGlobalConfig newConfig w1 = (Resolved tt, w1)
    ∧ updateGlobalConfig PartialConfig.empty w = (Resolved tt, w).
Proof.
  eexists. split; [reflexivity |]. do 3 (split; [reflexivity |]).
  split; [| split; [| split]].
  - cbn. apply length_fmap.
  - cbn. apply Forall2_fmap_r, Forall_Forall2_diag, Forall_forall.
    intros row _ Hid. by apply update_row_other.
  - unfold updateGlobalConfig, modify, set_app_config. cbn. do 2 f_equal.
    rewrite <- list_fmap_compose. apply list_fmap_ext.
    intros i row _. apply update_row_twice, dbUpdate_keeps_id.
  - unfold updateGlobalConfig, modify, set_app_config. cbn.
    destruct w as [user storage rows config]. cbn. do 2 f_equal.
    rewrite <- (list_fmap_id config) at 2. apply list_fmap_ext.
    intros i row _. unfold update_row.
    destruct (row !! "id") as [[[| [p | p |] | p] | |] |]; try done.
    apply (left_id_L ∅ (∪)).
Qed.

Lemma api_keys_update (keys : list string) (row : gmap string Json) :
  row !! "id" = Some (JNumber 1) →
  update_row {[ "api_keys" := JStrings keys ]} row
  = <["api_keys" := JStrings keys]> row.
Proof.
  intros Hid. rewrite (update_row_first _ _ Hid).
  symmetry. apply insert_union_singleton_l.
Qed.

Lemma api_keys_update_twice (first second : list string)
    (row : gmap string Json) :
  update_row {[ "api_keys" := JStrings second ]}
    (update_row {[ "api_keys" := JStrings first ]} row)
  = update_row {[ "api_keys" := JStrings second ]} row.
Proof.
  destruct (row_id_cases row) as [Hid | Hid].
  - rewrite (api_keys_update first row Hid), (api_keys_update second row Hid).
    rewrite api_keys_update by (by rewrite lookup_insert_ne).
    apply insert_insert_eq.
  - by rewrite !(update_row_other _ row Hid).
Qed.

Lemma update_app_config_twice (first second : list string) (w : World) :
  update_app_config {[ "api_keys" := JStrings second ]}
    (update_app_config {[ "api_keys" := JStrings first ]} w).2
  = update_app_config {[ "api_keys" := JStrings second ]} w.
Proof.
  unfold update_app_config, modify, set_app_config. cbn. do 2 f_equal.
  rewrite <- list_fmap_compose. apply list_fmap_ext.
  intros i row _. apply api_keys_update_twice.
Qed.

(** X29. [addApiKey] stores, in the configuration row with id 1, the
    mirror's credential list followed by the new key (so the new key has the
    lowest failover priority) and touches no other column. What is stored
    comes from the mirror, not from the stored list: of two operations
    issued from the same mirror, only the second one's list remains. *)
Theorem addApiKey_appends_to_mirror (globalConfig : AppConfig.t)
    (key other : string) (w : World) (i : nat) (row : gmap string Json) :
  app_config w !! i = Some row →
  row !! "id" = Some (JNumber 1) →
  app_config (addApiKey globalConfig key w).2 !! i
  = Some (<["api_keys" :=
              JStrings (AppConfig.apiKeys globalConfig ++ [key])]> row)
  ∧ addApiKey globalConfig other (addApiKey globalConfig key w).2
    = addApiKey globalConfig other w
  ∧ removeApiKey globalConfig other (addApiKey globalConfig key w).2
    = removeApiKey globalConfig other w.
Proof.
  intros Hrow Hid. split; [| split].
  - unfold addApiKey. rewrite (update_app_config_row _ _ _ _ Hrow).
    by rewrite api_keys_update.
  - apply update_app_config_twice.
  - apply update_app_config_twice.
Qed.

Lemma addApiKey_appends_to_mirror_witness :
  app_config (addApiKey Samples.global "keyC" Samples.fresh).2 !! 0
  = Some (<["api_keys" := JStrings (["keyA"; "keyB"] ++ ["keyC"])]>
            Samples.config_row)
  ∧ addApiKey Samples.global "keyD"
      (addApiKey Samples.global "keyC" Samples.fresh).2
    = addApiKey Samples.global "keyD" Samples.fresh
  ∧ removeApiKey Samples.global "keyD"
      (addApiKey Samples.global "keyC" Samples.fresh).2
    = removeApiKey Samples.global "keyD" Samples.fresh.
Proof.
  apply (addApiKey_appends_to_mirror Samples.global "keyC" "keyD"
           Samples.fresh 0 Samples.config_row); reflexivity.
Defined.




Example removeApiKey_drops_duplicates :
  app_config
    (removeApiKey
       {| AppConfig.aiName := "CentralGPT"; AppConfig.aiPersona := "";
          AppConfig.devName := "XdpzQ";
          AppConfig.apiKeys := ["keyA"; "keyB"; "keyA"; "keyC"];
          AppConfig.avatarUrl := "" |}
       "keyA" Samples.fresh).2
  = [ <["api_keys" := JStrings ["keyB"; "keyC"]]> Samples.config_row ].
Proof. vm_compute. reflexivity. Qed.

End SessionMore.
